(** * The hand-written [fetch] of the post "Implementing fetch in node"

    A shallow embedding of the final listing of the post
    ([parseContentLength], [readResponse], [fetch]) and the properties
    of its streaming response reader.

    JavaScript strings are modelled as lists of Unicode code points,
    the way the string iterator of [for (let char of ...)] walks
    them; [String.prototype.length] counts UTF-16 code units, so a
    code point above the Basic Multilingual Plane weighs two.

    What belongs to Node is taken as the documentation gives it.  The
    'data' listener receives the text of a chunk; a paused stream
    emits no 'data' and holds what comes in until it is resumed; the
    callback given to [end] runs when the stream emits 'finish', after
    the listener that called [end] has returned; an exception thrown
    by a listener is caught by nobody and ends the run.  The [URL]
    constructor, the resolver and the network are parameters of
    [fetch]. *)

From Stdlib Require Import List NArith Arith Bool Lia String Ascii.
Import ListNotations.

(** ** Text *)

Definition char := N.
Definition text := list char.

Definition LF : char := 10%N.
Definition CR : char := 13%N.

(** A literal: every character of a Rocq string is one code point. *)
Fixpoint str (s : string) : text :=
  match s with
  | EmptyString => []
  | String a s' => N_of_ascii a :: str s'
  end.

(** UTF-16 code units of one code point. *)
Definition units (c : char) : nat :=
  if (c <? 65536)%N then 1 else 2.

(** [s.length] *)
Fixpoint jslength (s : text) : nat :=
  match s with
  | [] => 0
  | c :: s' => units c + jslength s'
  end.

(** [s.slice(-1)]: the last character of [s], empty when [s] is.  (On a
    string that ends in a code point above U+FFFF JavaScript returns
    its trailing surrogate; the model returns the code point, which is
    as different from a line feed.) *)
Fixpoint slice_last (s : text) : text :=
  match s with
  | [] => []
  | [c] => [c]
  | _ :: s' => slice_last s'
  end.

Fixpoint text_eqb (a b : text) : bool :=
  match a, b with
  | [], [] => true
  | x :: a', y :: b' => (x =? y)%N && text_eqb a' b'
  | _, _ => false
  end.

(** ** Exceptions and results *)

Inductive exn :=
| TypeError (message : string)      (* the untyped runtime error *)
| LookupError (hostname : text).    (* rejection of dns.lookup *)

Inductive result (A : Type) :=
| Ok (a : A)
| Throw (e : exn).
Arguments Ok {A} a.
Arguments Throw {A} e.

(** ** parseContentLength

    [/content-length: (?<contentLength>\d+)/i] without the [u] flag:
    letters of the pattern match their two ASCII cases only, [\d] is
    [0-9], and [match] returns the leftmost match with the longest run
    of digits. *)

Definition lower (c : char) : char :=
  if ((65 <=? c) && (c <=? 90))%N then (c + 32)%N else c.

Definition is_digit (c : char) : bool :=
  ((48 <=? c) && (c <=? 57))%N.

(** The rest of [s] after a case-insensitive occurrence of [p] at its
    start. *)
Fixpoint strip_ci (p s : text) : option text :=
  match p, s with
  | [], _ => Some s
  | _ :: _, [] => None
  | a :: p', c :: s' => if (lower c =? a)%N then strip_ci p' s' else None
  end.

(** [\d+], greedy: the longest run of digits at the start of [s]. *)
Fixpoint digits (s : text) : text :=
  match s with
  | [] => []
  | c :: s' => if is_digit c then c :: digits s' else []
  end.

Definition key : text := str "content-length: ".

(** The named group when the pattern matches at the start of [s]. *)
Definition match_here (s : text) : option text :=
  match strip_ci key s with
  | Some rest =>
      match digits rest with
      | [] => None
      | ds => Some ds
      end
  | None => None
  end.

(** [rawHeaders.match(pattern)]: [None] is JavaScript's [null]. *)
Fixpoint regex_match (s : text) : option text :=
  match match_here s with
  | Some ds => Some ds
  | None =>
      match s with
      | [] => None
      | _ :: s' => regex_match s'
      end
  end.

(** [Number(ds)] on a run of decimal digits, as far as JavaScript
    numbers are exact: below 2^53 the result is the value of the
    digits.  From 2^53 on JavaScript rounds to a double, and gives
    [Infinity] on very long runs; the model keeps the value of the
    digits there, and what is stated of the number returned is stated
    below 2^53 only.  The reader only compares the number with the
    length of a string: no length reaches 2^53, so that neither the
    rounded double nor the value of the digits equals one. *)
Definition Number (ds : text) : N :=
  fold_left (fun acc d => (10 * acc + (d - 48))%N) ds 0%N.

Definition null_groups : exn :=
  TypeError "Cannot read properties of null (reading 'groups')".

Definition parseContentLength (rawHeaders : text) : result N :=
  match regex_match rawHeaders with
  | Some ds => Ok (Number ds)
  | None => Throw null_groups
  end.

(** ** readResponse

    The closure variables of [readResponse], the state of the
    connection it acts on, and a log of what it does to the outside. *)

(** [onBody]: the initial [() => {}], or the [resolve] of the promise
    made by the [n]-th call of [text()]. *)
Inductive callback :=
| Noop
| Resolve (promise : nat).

Inductive effect :=
| Pause                                   (* connection.pause() *)
| Resume                                  (* connection.resume() *)
| OnHeaders                               (* onHeaders({text}) *)
| End                                     (* connection.end(callback) *)
| Resolved (promise : nat) (value : text) (* onBody(body), onBody a resolve *).

Record world := World {
  contentLength : option N;   (* [undefined] until the headers are read *)
  onBody : callback;
  rawHeaders : text;
  body : text;
  headersRead : bool;
  paused : bool;              (* the stream does not emit 'data' *)
  pending : list text;        (* chunks received while paused *)
  finishing : bool;           (* the callback of [end] waits for 'finish' *)
  promises : nat;             (* calls of [text()] so far *)
  trace : list effect
}.

Definition start : world :=
  {| contentLength := None; onBody := Noop; rawHeaders := []; body := [];
     headersRead := false; paused := false; pending := [];
     finishing := false; promises := 0; trace := [] |}.

Inductive outcome :=
| Running (w : world)
| Crashed (e : exn) (w : world).   (* uncaught exception out of a listener *)

Definition bodyStartMarker : text := [LF; CR].

(** [rawHeaders += char] *)
Definition append_header (w : world) (c : char) : world :=
  {| contentLength := contentLength w; onBody := onBody w;
     rawHeaders := rawHeaders w ++ [c]; body := body w;
     headersRead := headersRead w; paused := paused w;
     pending := pending w; finishing := finishing w;
     promises := promises w; trace := trace w |}.

(** [contentLength = ...; headersRead = true; connection.pause();
    onHeaders({...})] *)
Definition headers_done (w : world) (n : N) : world :=
  {| contentLength := Some n; onBody := onBody w;
     rawHeaders := rawHeaders w; body := body w;
     headersRead := true; paused := true;
     pending := pending w; finishing := finishing w;
     promises := promises w; trace := trace w ++ [Pause; OnHeaders] |}.

(** [body += char] *)
Definition append_body (w : world) (c : char) : world :=
  {| contentLength := contentLength w; onBody := onBody w;
     rawHeaders := rawHeaders w; body := body w ++ [c];
     headersRead := headersRead w; paused := paused w;
     pending := pending w; finishing := finishing w;
     promises := promises w; trace := trace w |}.

(** [connection.end(() => onBody(body))]: the callback is kept until
    the stream has finished. *)
Definition end_connection (w : world) : world :=
  {| contentLength := contentLength w; onBody := onBody w;
     rawHeaders := rawHeaders w; body := body w;
     headersRead := headersRead w; paused := paused w;
     pending := pending w; finishing := true;
     promises := promises w; trace := trace w ++ [End] |}.

(** [body.length === contentLength] *)
Definition length_is (s : text) (n : option N) : bool :=
  match n with
  | Some n => (N.of_nat (jslength s) =? n)%N
  | None => false
  end.

(** One turn of the loop over the characters of a chunk. *)
Definition onChar (w : world) (c : char) : outcome :=
  if negb (headersRead w) then
    let previousChar := slice_last (rawHeaders w) in
    if text_eqb (previousChar ++ [c]) bodyStartMarker then
      match parseContentLength (rawHeaders w) with
      | Ok n => Running (headers_done w n)
      | Throw e => Crashed e w
      end
    else Running (append_header w c)
  else
    let w' := append_body w c in
    if length_is (body w') (contentLength w') then Running (end_connection w')
    else Running w'.

(** The 'data' listener, on the text [data.toString('utf8')] of a
    chunk. *)
Fixpoint onData (w : world) (data : text) : outcome :=
  match data with
  | [] => Running w
  | c :: data' =>
      match onChar w c with
      | Running w' => onData w' data'
      | Crashed e w' => Crashed e w'
      end
  end.

(** ** The connection and the consumer

    What happens to a running reader: a chunk comes in from the
    network, the consumer calls [text()] on the handle, the writable
    side emits 'finish', the peer closes. *)

Inductive event :=
| Arrive (chunk : text)
| CallText
| Finished
| Closed.

Definition enqueue (w : world) (chunks : list text) : world :=
  {| contentLength := contentLength w; onBody := onBody w;
     rawHeaders := rawHeaders w; body := body w;
     headersRead := headersRead w; paused := paused w;
     pending := pending w ++ chunks; finishing := finishing w;
     promises := promises w; trace := trace w |}.

(** The stream emits 'data' for each chunk it holds, as long as it is
    not paused. *)
Fixpoint deliver (w : world) (chunks : list text) : outcome :=
  match chunks with
  | [] => Running w
  | chunk :: chunks' =>
      if paused w then Running (enqueue w chunks)
      else
        match onData w chunk with
        | Running w' => deliver w' chunks'
        | Crashed e w' => Crashed e w'
        end
  end.

(** [text()]: [connection.resume()], then [onBody = resolve] for a new
    promise. *)
Definition text_called (w : world) : world :=
  {| contentLength := contentLength w; onBody := Resolve (promises w);
     rawHeaders := rawHeaders w; body := body w;
     headersRead := headersRead w; paused := false;
     pending := []; finishing := finishing w;
     promises := S (promises w); trace := trace w ++ [Resume] |}.

(** The callback given to [end]: [() => onBody(body)]. *)
Definition finished (w : world) : world :=
  {| contentLength := contentLength w; onBody := onBody w;
     rawHeaders := rawHeaders w; body := body w;
     headersRead := headersRead w; paused := paused w;
     pending := pending w; finishing := false;
     promises := promises w;
     trace := match onBody w with
              | Resolve k => trace w ++ [Resolved k (body w)]
              | Noop => trace w
              end |}.

Definition react (w : world) (ev : event) : outcome :=
  match ev with
  | Arrive chunk => deliver w [chunk]
  | CallText =>
      (* the handle exists once onHeaders has been called *)
      if headersRead w then deliver (text_called w) (pending w)
      else Running w
  | Finished => if finishing w then Running (finished w) else Running w
  | Closed => Running w      (* no 'end', 'close' or 'error' listener *)
  end.

Fixpoint run (w : world) (evs : list event) : outcome :=
  match evs with
  | [] => Running w
  | ev :: evs' =>
      match react w ev with
      | Running w' => run w' evs'
      | Crashed e w' => Crashed e w'
      end
  end.

Definition world_of (o : outcome) : world :=
  match o with
  | Running w => w
  | Crashed _ w => w
  end.

(** ** fetch *)

(** The fields of a [URL] object that the post lists. *)
Record URL := {
  protocol : text;
  hostname : text;
  port : text;
  pathname : text;
  search : text;
  hash : text
}.

Record DnsRecord := { address : text; family : N }.

Inductive netop :=
| DnsLookup (name : text)                     (* dns.lookup(name) *)
| CreateConnection (p : text + N) (host : text) (* createConnection({port, host}) *)
| ConnectionWrite (data : text).              (* connection.write(data) *)

(** [url.port || 80]: the empty string is falsy. *)
Definition port_or_80 (p : text) : text + N :=
  match p with
  | [] => inr 80%N
  | _ => inl p
  end.

(** The template of the connect callback. *)
Definition request (url : URL) : text :=
  (str "GET " ++ pathname url ++ str " HTTP/1.1") ++ [LF]
  ++ (str "host: " ++ hostname url) ++ [LF; LF].

(** How far a call of [fetch] gets before the response reader takes
    over. *)
Inductive fetching :=
| Rejected (e : exn) (ops : list netop)      (* the promise is rejected *)
| Unconnected (ops : list netop)             (* the connect callback never runs *)
| Reading (ops : list netop) (reader : world). (* request sent, readResponse attached *)

Definition ops_of (f : fetching) : list netop :=
  match f with
  | Rejected _ ops => ops
  | Unconnected ops => ops
  | Reading ops _ => ops
  end.

Section Fetch.

(** Node's part: the URL constructor, the resolver and the network. *)
Variable newURL : text -> result URL.
Variable lookup : text -> result DnsRecord.
Variable connects : text + N -> text -> bool.

Definition fetch (urlString : text) : fetching :=
  match newURL urlString with
  | Throw e => Rejected e []
  | Ok url =>
      match lookup (hostname url) with
      | Throw e => Rejected e [DnsLookup (hostname url)]
      | Ok dnsRecord =>
          let p := port_or_80 (port url) in
          let host := address dnsRecord in
          if connects p host then
            Reading [DnsLookup (hostname url); CreateConnection p host;
                     ConnectionWrite (request url)] start
          else
            Unconnected [DnsLookup (hostname url); CreateConnection p host]
      end
  end.

End Fetch.

(** ** Reading the log *)

Definition is_OnHeaders (e : effect) : bool :=
  match e with OnHeaders => true | _ => false end.

Definition is_End (e : effect) : bool :=
  match e with End => true | _ => false end.

Definition is_Resolved (e : effect) : bool :=
  match e with Resolved _ _ => true | _ => false end.

(** Calls of [onHeaders], calls of [connection.end], settled body
    promises. *)
Definition notified (t : list effect) : nat := List.length (filter is_OnHeaders t).
Definition ended (t : list effect) : nat := List.length (filter is_End t).
Definition settled (t : list effect) : list effect := filter is_Resolved t.

Arguments notified : simpl never.
Arguments ended : simpl never.
Arguments settled : simpl never.

(** The texts written to the connection. *)
Fixpoint writes (ops : list netop) : list text :=
  match ops with
  | [] => []
  | ConnectionWrite data :: ops' => data :: writes ops'
  | _ :: ops' => writes ops'
  end.

(** The chunks that a list of events brings in. *)
Fixpoint arrivals (evs : list event) : list text :=
  match evs with
  | [] => []
  | Arrive chunk :: evs' => chunk :: arrivals evs'
  | _ :: evs' => arrivals evs'
  end.

Definition is_CallText (ev : event) : bool :=
  match ev with CallText => true | _ => false end.

Definition crash_of (o : outcome) : option exn :=
  match o with
  | Running _ => None
  | Crashed e _ => Some e
  end.

(** The part of a world that reading the body leaves alone. *)
Definition header_part (w : world) : bool * text * option N * nat :=
  (headersRead w, rawHeaders w, contentLength w, notified (trace w)).

(** What a run has made of the headers: the exception if it threw, the
    flag, the header text, the parsed length, the calls of
    [onHeaders]. *)
Definition parsed (o : outcome) : option exn * (bool * text * option N * nat) :=
  (crash_of o, header_part (world_of o)).

(** ** Words of the statements *)

Definition SP : char := 32%N.
Definition CRLF : text := [CR; LF].

(** Lines, each ended by [eol]. *)
Definition lines (eol : text) (ls : list text) : text :=
  List.concat (map (fun l => l ++ eol) ls).

(** No line feed directly followed by a carriage return. *)
Fixpoint no_LFCR (s : text) : bool :=
  match s with
  | [] => true
  | c :: s' =>
      match s' with
      | d :: _ => negb ((c =? LF)%N && (d =? CR)%N) && no_LFCR s'
      | [] => true
      end
  end.

(** [p] occurs in [s]. *)
Definition occurs (p s : text) : Prop :=
  exists a b, s = a ++ p ++ b.

(** [p] is a prefix of [s]. *)
Fixpoint starts (p s : text) : bool :=
  match p, s with
  | [], _ => true
  | x :: p', y :: s' => (x =? y)%N && starts p' s'
  | _ :: _, [] => false
  end.

Fixpoint occursb (p s : text) : bool :=
  starts p s || match s with
                | [] => false
                | _ :: s' => occursb p s'
                end.

(** The header text holds "content-length: ", in any letter case,
    directly followed by a decimal digit. *)
Definition declares (h : text) : Prop :=
  exists pre k d rest,
    h = pre ++ k ++ d :: rest /\ map lower k = key /\ is_digit d = true.

(** Nothing has been done about the body yet. *)
Definition quiet (w : world) : Prop :=
  finishing w = false /\ ended (trace w) = 0 /\ settled (trace w) = [].

(** The header text grows by [s]; nothing else changes. *)
Definition add_header (w : world) (s : text) : world :=
  {| contentLength := contentLength w; onBody := onBody w;
     rawHeaders := rawHeaders w ++ s; body := body w;
     headersRead := headersRead w; paused := paused w;
     pending := pending w; finishing := finishing w;
     promises := promises w; trace := trace w |}.

(** What holds of every state of the reader: before the headers are
    read nothing else has happened; once they are, [onHeaders] has been
    called once and the length is known; [connection.end] is called on
    a body that is not empty and has reached the declared length; a
    flowing stream holds nothing back. *)
Definition sound (w : world) : Prop :=
  (headersRead w = false ->
     contentLength w = None /\ body w = [] /\ paused w = false
     /\ quiet w /\ notified (trace w) = 0)
  /\ (headersRead w = true ->
        notified (trace w) = 1 /\ exists n, contentLength w = Some n)
  /\ (quiet w
      \/ exists n, contentLength w = Some n
                   /\ 1 <= N.to_nat n <= jslength (body w))
  /\ (paused w = false -> pending w = []).

(** ** Examples *)

(** The response of the scenario, whole and in pieces. *)
Definition hello : text :=
  str "HTTP/1.1 200 OK" ++ CRLF ++ str "content-length: 13" ++ CRLF ++ CRLF
  ++ str "Hello, world!".

Definition header_block : text :=
  str "HTTP/1.1 200 OK" ++ CRLF ++ str "content-length: 13" ++ CRLF.

Definition headers_chunk : text := header_block ++ CRLF.

Definition second_chunk : text :=
  str " OK" ++ CRLF ++ str "content-length: 13" ++ CRLF ++ CRLF.

Definition three_chunks : list text :=
  [str "HTTP/1.1 200"; second_chunk; str "Hello, world!"].


Definition empty_response : text :=
  str "HTTP/1.1 200 OK" ++ CRLF ++ str "content-length: 0" ++ CRLF ++ CRLF.

(** What Node answers on the two addresses of the examples: the [URL]
    objects, the record of the resolver as the post shows it, and a
    network that lets every connection through. *)
Definition example_com (scheme : string) : URL :=
  {| protocol := str scheme; hostname := str "example.com"; port := [];
     pathname := str "/"; search := []; hash := [] |}.

Definition node_URL (urlString : text) : result URL :=
  if text_eqb urlString (str "http://example.com") then Ok (example_com "http:")
  else if text_eqb urlString (str "ftp://example.com") then Ok (example_com "ftp:")
  else Throw (TypeError "Invalid URL").

Definition node_lookup (name : text) : result DnsRecord :=
  if text_eqb name (str "example.com")
  then Ok {| address := str "93.184.216.34"; family := 4%N |}
  else Throw (LookupError name).

Definition reachable (p : text + N) (host : text) : bool := true.

(** ** Promises and conservation *)

Definition is_Resume (e : effect) : bool :=
  match e with Resume => true | _ => false end.

(** Calls of [connection.resume], that is calls of [text()]. *)
Definition resumes (t : list effect) : nat := List.length (filter is_Resume t).

Arguments resumes : simpl never.

(** Every promise resolved in the log is the one made by the call of
    [text()] that comes last before it, [count] calls having been made
    before the log starts. *)
Fixpoint latest_only (count : nat) (t : list effect) : bool :=
  match t with
  | [] => true
  | Resume :: t' => latest_only (S count) t'
  | Resolved k _ :: t' => (S k =? count) && latest_only count t'
  | _ :: t' => latest_only count t'
  end.

(** What holds of the end of the body in every state of the reader. *)
Definition tidy (w : world) : Prop :=
  ended (trace w) <= 1
  /\ (finishing w = true -> ended (trace w) = 1 /\ settled (trace w) = [])
  /\ (ended (trace w) = 0 -> settled (trace w) = [])
  /\ (ended (trace w) = 1 ->
      exists n, contentLength w = Some n /\ N.to_nat n <= jslength (body w))
  /\ (forall k v,
        In (Resolved k v) (trace w) ->
        settled (trace w) = [Resolved k v]
        /\ finishing w = false
        /\ (exists more, body w = v ++ more)
        /\ exists n, contentLength w = Some n /\ N.to_nat n <= jslength v)
  /\ promises w = resumes (trace w)
  /\ match onBody w with
     | Noop => promises w = 0
     | Resolve k => S k = promises w
     end
  /\ latest_only 0 (trace w) = true.

(** All the text that the reader holds, in the order of its arrival:
    the header text, and once the headers are read the carriage return
    that closed them, the body and what the paused stream holds
    back. *)
Definition received (w : world) : text :=
  if headersRead w
  then rawHeaders w ++ [CR] ++ body w ++ List.concat (pending w)
  else rawHeaders w.

(** A run in which [text()] is called twice before the body comes
    in, and more text comes in after the stream has finished. *)
Definition resolving_run : list event :=
  [Arrive headers_chunk; CallText; CallText; Arrive (str "Hello, world!");
   Finished; Arrive (str "more")].

(** The body grows by [s]; nothing else changes. *)
Definition add_body (w : world) (s : text) : world :=
  {| contentLength := contentLength w; onBody := onBody w;
     rawHeaders := rawHeaders w; body := body w ++ s;
     headersRead := headersRead w; paused := paused w;
     pending := pending w; finishing := finishing w;
     promises := promises w; trace := trace w |}.

(** The body has reached the declared length, or passed it, and no
    callback waits for the stream to finish. *)
Definition past (w : world) : Prop :=
  headersRead w = true
  /\ finishing w = false
  /\ exists n, contentLength w = Some n /\ N.to_nat n <= jslength (body w).

(** A response of one character that takes two UTF-16 code units. *)
Definition astral_response : text :=
  str "HTTP/1.1 200 OK" ++ CRLF ++ str "content-length: 2" ++ CRLF ++ CRLF
  ++ [128512%N].

(** ** The earlier listings of readResponse

    The first listing of the post has the header text alone, and a
    [text()] that does nothing; the second adds the content length,
    parsed at every turn of the loop.  Both are modelled on the state
    of the last listing, whose other variables they leave as they
    start. *)

(** [connection.pause(); onHeaders({async text() {}})] *)
Definition announce (w : world) : world :=
  {| contentLength := contentLength w; onBody := onBody w;
     rawHeaders := rawHeaders w; body := body w;
     headersRead := headersRead w; paused := true;
     pending := pending w; finishing := finishing w;
     promises := promises w; trace := trace w ++ [Pause; OnHeaders] |}.

(** One turn of the loop of the first listing. *)
Definition onChar1 (w : world) (c : char) : world :=
  let previousChar := slice_last (rawHeaders w) in
  if text_eqb (previousChar ++ [c]) bodyStartMarker then announce w
  else append_header w c.

Fixpoint onData1 (w : world) (data : text) : world :=
  match data with
  | [] => w
  | c :: data' => onData1 (onChar1 w c) data'
  end.

(** [contentLength = ...] *)
Definition set_contentLength (w : world) (n : N) : world :=
  {| contentLength := Some n; onBody := onBody w;
     rawHeaders := rawHeaders w; body := body w;
     headersRead := headersRead w; paused := paused w;
     pending := pending w; finishing := finishing w;
     promises := promises w; trace := trace w |}.

(** One turn of the loop of the second listing. *)
Definition onChar2 (w : world) (c : char) : outcome :=
  let previousChar := slice_last (rawHeaders w) in
  match parseContentLength (rawHeaders w) with
  | Throw e => Crashed e w
  | Ok n =>
      let w' := set_contentLength w n in
      if text_eqb (previousChar ++ [c]) bodyStartMarker
      then Running (announce w')
      else Running (append_header w' c)
  end.

Fixpoint onData2 (w : world) (data : text) : outcome :=
  match data with
  | [] => Running w
  | c :: data' =>
      match onChar2 w c with
      | Running w' => onData2 w' data'
      | Crashed e w' => Crashed e w'
      end
  end.

(** Line feeds directly followed by a carriage return. *)
Fixpoint count_LFCR (s : text) : nat :=
  match s with
  | [] => 0
  | c :: s' =>
      match s' with
      | d :: _ => (if ((c =? LF)%N && (d =? CR)%N) then 1 else 0) + count_LFCR s'
      | [] => 0
      end
  end.

(** ** The tag filter of the home page

    The script of the home page layout hides the posts that do not
    carry the tag of the address.  A post is given by the texts of its
    pills; the result tells, post by post, whether it gets
    [display: none]. *)

(** [postTags.includes(tag)] *)
Definition includes (postTags : list text) (tag : text) : bool :=
  existsb (fun t => text_eqb t tag) postTags.

(** The posts of [excluded], marked in the list of posts. *)
Definition excluded (tag : text) (posts : list (list text)) : list bool :=
  map (fun postTags => negb (includes postTags tag)) posts.

Definition count_true (l : list bool) : nat :=
  List.length (filter (fun b => b) l).

(** [tag] is [None] when the address has no [tag] parameter; [null] and
    the empty string are falsy. *)
Definition hidden (tag : option text) (posts : list (list text)) : list bool :=
  match tag with
  | Some (c :: t) =>
      if count_true (excluded (c :: t) posts) <? List.length posts
      then excluded (c :: t) posts
      else map (fun _ => false) posts
  | _ => map (fun _ => false) posts
  end.

(** ** Tic tac toe: finding a winner

    [calculateWinner] and its helpers read [state.grid], here their
    first argument; what [diagonalWin] writes to the console is
    returned with its result. *)

Definition players : list text := [str "X"; str "0"].

Definition undefined_every : exn :=
  TypeError "Cannot read properties of undefined (reading 'every')".

(** [row[i] === player]; an index out of the row gives [undefined]. *)
Definition cell_is (row : list text) (i : nat) (player : text) : bool :=
  match nth_error row i with
  | Some square => text_eqb square player
  | None => false
  end.

Definition rowWins (grid : list (list text)) (player : text) (rowIndex : nat)
  : result bool :=
  match nth_error grid rowIndex with
  | Some row => Ok (forallb (fun square => text_eqb square player) row)
  | None => Throw undefined_every
  end.

Definition colWins (grid : list (list text)) (player : text) (colIndex : nat)
  : bool :=
  forallb (fun row => cell_is row colIndex player) grid.

(** The first [every] of [diagonalWin], from row [index] on: it logs
    the square it looks at and stops at the first that is not the
    player's. *)
Fixpoint anti_diagonal (rows : list (list text)) (index len : nat)
  (player : text) : list (option text) * bool :=
  match rows with
  | [] => ([], true)
  | row :: rows' =>
      let square := nth_error row (len - 1 - index) in
      if cell_is row (len - 1 - index) player then
        let (log, all) := anti_diagonal rows' (S index) len player in
        (square :: log, all)
      else ([square], false)
  end.

(** The second [every] of [diagonalWin]. *)
Fixpoint main_diagonal (rows : list (list text)) (index : nat)
  (player : text) : bool :=
  match rows with
  | [] => true
  | row :: rows' => cell_is row index player && main_diagonal rows' (S index) player
  end.

Definition diagonalWin (grid : list (list text)) (player : text)
  : list (option text) * bool :=
  let (log, anti) := anti_diagonal grid 0 (List.length grid) player in
  if anti then (log, true) else (log, main_diagonal grid 0 player).

Definition isWinner (grid : list (list text)) (rowIndex colIndex : nat)
  (player : text) : result bool :=
  match rowWins grid player rowIndex with
  | Ok true => Ok true
  | Ok false => Ok (colWins grid player colIndex)
  | Throw e => Throw e
  end.

(** [players.find(...)] with a callback that may throw. *)
Fixpoint find (f : text -> result bool) (l : list text) : result (option text) :=
  match l with
  | [] => Ok None
  | x :: l' =>
      match f x with
      | Ok true => Ok (Some x)
      | Ok false => find f l'
      | Throw e => Throw e
      end
  end.

(** [players.find(diagonalWin)] *)
Fixpoint find_diagonal (grid : list (list text)) (l : list text)
  : list (option text) * option text :=
  match l with
  | [] => ([], None)
  | x :: l' =>
      let (log, won) := diagonalWin grid x in
      if won then (log, Some x)
      else let (log', found) := find_diagonal grid l' in (log ++ log', found)
  end.

(** [if (winner)]: a string is truthy unless empty. *)
Definition truthy (value : option text) : bool :=
  match value with
  | Some (_ :: _) => true
  | _ => false
  end.

(** The inner loop of [calculateWinner], over the column indices
    [cols] that are left. *)
Fixpoint scan_columns (grid : list (list text)) (rowIndex : nat)
  (cols : list nat) : result (option text) :=
  match cols with
  | [] => Ok None
  | colIndex :: cols' =>
      match find (isWinner grid rowIndex colIndex) players with
      | Throw e => Throw e
      | Ok winner =>
          if truthy winner then Ok winner
          else scan_columns grid rowIndex cols'
      end
  end.

(** The outer loop, over the row indices [rows] that are left. *)
Fixpoint scan_rows (grid : list (list text)) (rows : list nat)
  : result (option text) :=
  match rows with
  | [] => Ok None
  | rowIndex :: rows' =>
      match scan_columns grid rowIndex
              (seq 0 (List.length (nth rowIndex grid []))) with
      | Throw e => Throw e
      | Ok (Some winner) => Ok (Some winner)
      | Ok None => scan_rows grid rows'
      end
  end.

(** The console output and the winner, [None] for [null]. *)
Definition calculateWinner (grid : list (list text))
  : result (list (option text) * option text) :=
  match scan_rows grid (seq 0 (List.length grid)) with
  | Throw e => Throw e
  | Ok (Some winner) => Ok ([], Some winner)
  | Ok None =>
      let (log, diagonalWinner) := find_diagonal grid players in
      if truthy diagonalWinner then Ok (log, diagonalWinner)
      else Ok (log, None)
  end.

(** The player has a line: a row that is not empty, a column, or one of
    the two diagonals, with the player's mark in every square. *)
Definition has_row (grid : list (list text)) (p : text) : Prop :=
  exists r row, nth_error grid r = Some row /\ row <> []
                /\ forall square, In square row -> square = p.

Definition has_column (grid : list (list text)) (p : text) : Prop :=
  exists c, grid <> [] /\ forall row, In row grid -> nth_error row c = Some p.

Definition has_anti_diagonal (grid : list (list text)) (p : text) : Prop :=
  forall i row, nth_error grid i = Some row ->
                nth_error row (List.length grid - 1 - i) = Some p.

Definition has_main_diagonal (grid : list (list text)) (p : text) : Prop :=
  forall i row, nth_error grid i = Some row -> nth_error row i = Some p.

Definition has_line (grid : list (list text)) (p : text) : Prop :=
  has_row grid p \/ has_column grid p
  \/ has_anti_diagonal grid p \/ has_main_diagonal grid p.

(** What evaluating the [innerText] of [Status] comes to. *)
Inductive rendered :=
| Shown (log : list (option text)) (innerText : text)
| Thrown (e : exn)
| ReferenceError (log : list (option text)) (name : string).

(** The [innerText] of the last [Status], with what has been written
    to the console: the name [winner] of its second template is
    declared nowhere. *)
Definition Status (grid : list (list text)) (currentPlayer : nat) : rendered :=
  match calculateWinner grid with
  | Throw e => Thrown e
  | Ok (log, None) =>
      Shown log (str "Next player: "
                 ++ nth (currentPlayer mod 2) players (str "undefined"))
  | Ok (log, Some _) => ReferenceError log "winner"
  end.

(** A grid in which X has the main diagonal. *)
Definition won_grid : list (list text) :=
  [[str "X"; str "0"; str ""];
   [str "0"; str "X"; str ""];
   [str ""; str ""; str "X"]].

(** The stream is paused exactly between the announcement of the
    headers and the first call of [text()], which cannot come before
    the headers. *)
Definition paused_for_headers (w : world) : Prop :=
  (headersRead w = false -> promises w = 0)
  /\ paused w = headersRead w && (promises w =? 0).

(** ** Chunks of bytes

    What comes in from the network is a buffer of bytes, and the
    listener reads [data.toString('utf8')], the text of each chunk
    decoded on its own.  The decoder is Node's and a parameter of what
    is stated on bytes; [toString_utf8] is the UTF-8 decoder with
    replacement characters, for the examples. *)










(** ** Lemmas on text *)

Lemma units_pos c : 1 <= units c.
Proof. unfold units; destruct (c <? 65536)%N; lia. Qed.

Lemma jslength_app a b : jslength (a ++ b) = jslength a + jslength b.
Proof. induction a as [|c a IH]; simpl; [reflexivity | rewrite IH; lia]. Qed.

Lemma jslength_snoc_pos s c : 1 <= jslength (s ++ [c]).
Proof. rewrite jslength_app; simpl; pose proof (units_pos c); lia. Qed.

Lemma text_eqb_eq a b : text_eqb a b = true <-> a = b.
Proof.
  revert b; induction a as [|x a IH]; intros [|y b]; simpl;
    [split; reflexivity | split; discriminate | split; discriminate |].
  rewrite andb_true_iff, N.eqb_eq, IH. split.
  - intros [-> ->]; reflexivity.
  - intros E; injection E as -> ->; auto.
Qed.

(** The test of the loop: the previous character is a line feed and
    this one a carriage return. *)
Lemma marker_test s c :
  text_eqb (slice_last s ++ [c]) bodyStartMarker = true
  <-> slice_last s = [LF] /\ c = CR.
Proof.
  rewrite text_eqb_eq; unfold bodyStartMarker; split.
  - intros H. destruct (slice_last s) as [|x [|y l]] eqn:E;
      simpl in H; try discriminate.
    + injection H as -> ->; auto.
    + injection H as _ _ H; destruct l; discriminate.
  - intros [-> ->]; reflexivity.
Qed.

Lemma no_LFCR_snoc s c :
  no_LFCR (s ++ [c]) =
  no_LFCR s && negb (text_eqb (slice_last s ++ [c]) bodyStartMarker).
Proof.
  induction s as [|d s IH].
  - cbn. rewrite andb_false_r; reflexivity.
  - destruct s as [|d' s].
    + cbn. rewrite !andb_true_r; reflexivity.
    + change (no_LFCR ((d :: d' :: s) ++ [c]))
        with (negb ((d =? LF)%N && (d' =? CR)%N) && no_LFCR ((d' :: s) ++ [c])).
      rewrite IH.
      change (slice_last (d :: d' :: s)) with (slice_last (d' :: s)).
      change (no_LFCR (d :: d' :: s))
        with (negb ((d =? LF)%N && (d' =? CR)%N) && no_LFCR (d' :: s)).
      rewrite andb_assoc; reflexivity.
Qed.

Lemma no_LFCR_app_l a b : no_LFCR (a ++ b) = true -> no_LFCR a = true.
Proof.
  revert a; induction b as [|c b IH] using rev_ind; intros a H.
  - rewrite app_nil_r in H; exact H.
  - rewrite app_assoc, no_LFCR_snoc in H.
    apply andb_true_iff in H; destruct H as [H _]; auto.
Qed.

(** ** Lemmas on the log *)

Lemma notified_app a b : notified (a ++ b) = notified a + notified b.
Proof. unfold notified; rewrite filter_app, List.length_app; reflexivity. Qed.

Lemma ended_app a b : ended (a ++ b) = ended a + ended b.
Proof. unfold ended; rewrite filter_app, List.length_app; reflexivity. Qed.

Lemma settled_app a b : settled (a ++ b) = settled a ++ settled b.
Proof. unfold settled; apply filter_app. Qed.

(** Splits the log of a step and evaluates its new, explicit part. *)
Ltac log :=
  repeat rewrite ?notified_app, ?ended_app, ?settled_app;
  repeat match goal with
    | |- context [notified (?e :: ?t)] =>
        let v := eval compute in (notified (e :: t)) in
        change (notified (e :: t)) with v
    | |- context [ended (?e :: ?t)] =>
        let v := eval compute in (ended (e :: t)) in
        change (ended (e :: t)) with v
    | |- context [settled (?e :: ?t)] =>
        let v := eval compute in (settled (e :: t)) in
        change (settled (e :: t)) with v
    end;
  rewrite ?Nat.add_0_r, ?app_nil_r.

(** ** The reader, character by character: proofs *)

Lemma onData_app w a b :
  onData w (a ++ b) =
  match onData w a with
  | Running w' => onData w' b
  | Crashed e w' => Crashed e w'
  end.
Proof.
  revert w; induction a as [|c a IH]; intros w; simpl; [reflexivity|].
  destruct (onChar w c); [apply IH | reflexivity].
Qed.

(** What one character does once the headers are read. *)
Lemma onChar_body w c :
  headersRead w = true ->
  exists w',
    onChar w c = Running w'
    /\ body w' = body w ++ [c]
    /\ headersRead w' = true
    /\ rawHeaders w' = rawHeaders w
    /\ contentLength w' = contentLength w
    /\ onBody w' = onBody w
    /\ paused w' = paused w
    /\ pending w' = pending w
    /\ promises w' = promises w
    /\ notified (trace w') = notified (trace w)
    /\ settled (trace w') = settled (trace w)
    /\ (length_is (body w ++ [c]) (contentLength w) = false ->
        trace w' = trace w /\ finishing w' = finishing w).
Proof.
  intros H. unfold onChar. rewrite H; simpl.
  destruct (length_is (body w ++ [c]) (contentLength w)) eqn:E.
  - eexists; split; [reflexivity|]; simpl.
    log. repeat split; auto; discriminate.
  - eexists; split; [reflexivity|]; simpl. repeat split; auto.
Qed.

Lemma onData_body w s :
  headersRead w = true ->
  exists w',
    onData w s = Running w'
    /\ body w' = body w ++ s
    /\ headersRead w' = true
    /\ rawHeaders w' = rawHeaders w
    /\ contentLength w' = contentLength w
    /\ onBody w' = onBody w
    /\ paused w' = paused w
    /\ pending w' = pending w
    /\ promises w' = promises w
    /\ notified (trace w') = notified (trace w)
    /\ settled (trace w') = settled (trace w).
Proof.
  revert w; induction s as [|c s IH]; intros w H; simpl.
  - exists w; rewrite app_nil_r; repeat split; auto.
  - destruct (onChar_body w c H)
      as (w1 & -> & Hb & Hh & Hr & Hc & Ho & Hp & Hq & Hn & Ht & Hs & _).
    destruct (IH w1 Hh)
      as (w2 & -> & Hb2 & Hh2 & Hr2 & Hc2 & Ho2 & Hp2 & Hq2 & Hn2 & Ht2 & Hs2).
    exists w2; split; [reflexivity|].
    rewrite Hb2, Hb, <- app_assoc; simpl.
    repeat split; congruence.
Qed.

(** What one character does while the headers are being read. *)
Lemma onChar_header w c :
  headersRead w = false ->
  text_eqb (slice_last (rawHeaders w) ++ [c]) bodyStartMarker = false ->
  onChar w c = Running (append_header w c).
Proof. intros H E; unfold onChar; rewrite H, E; reflexivity. Qed.

Lemma onChar_marker w c n :
  headersRead w = false ->
  text_eqb (slice_last (rawHeaders w) ++ [c]) bodyStartMarker = true ->
  parseContentLength (rawHeaders w) = Ok n ->
  onChar w c = Running (headers_done w n).
Proof. intros H E P; unfold onChar; rewrite H, E, P; reflexivity. Qed.

Lemma onChar_throw w c e :
  headersRead w = false ->
  text_eqb (slice_last (rawHeaders w) ++ [c]) bodyStartMarker = true ->
  parseContentLength (rawHeaders w) = Throw e ->
  onChar w c = Crashed e w.
Proof. intros H E P; unfold onChar; rewrite H, E, P; reflexivity. Qed.

Lemma add_header_nil w : add_header w [] = w.
Proof. destruct w; unfold add_header; simpl; rewrite app_nil_r; reflexivity. Qed.

Lemma add_header_cons w c s :
  add_header (append_header w c) s = add_header w (c :: s).
Proof.
  unfold add_header, append_header; simpl.
  rewrite <- app_assoc; reflexivity.
Qed.

(** As long as no line feed is followed by a carriage return, the
    characters go to the header text. *)
Lemma onData_header w s :
  headersRead w = false ->
  no_LFCR (rawHeaders w ++ s) = true ->
  onData w s = Running (add_header w s).
Proof.
  revert w; induction s as [|c s IH]; intros w H N; simpl.
  - rewrite add_header_nil; reflexivity.
  - assert (E : text_eqb (slice_last (rawHeaders w) ++ [c]) bodyStartMarker
                = false).
    { change (c :: s) with ([c] ++ s) in N. rewrite app_assoc in N.
      apply no_LFCR_app_l in N. rewrite no_LFCR_snoc in N.
      apply andb_true_iff in N; destruct N as [_ N].
      destruct (text_eqb _ _); [discriminate | reflexivity]. }
    rewrite (onChar_header w c H E), <- add_header_cons.
    apply IH; [exact H|].
    simpl. rewrite <- app_assoc. exact N.
Qed.

(** ** What holds of every state of the reader: proofs *)

Lemma sound_start : sound start.
Proof.
  unfold sound, quiet; simpl; repeat split; auto; discriminate.
Qed.

Lemma length_is_true s n :
  length_is s n = true -> exists k, n = Some k /\ N.to_nat k = jslength s.
Proof.
  destruct n as [k|]; simpl; [|discriminate].
  intros H; apply N.eqb_eq in H; exists k; split; [reflexivity|].
  subst k; apply Nat2N.id.
Qed.

Lemma sound_onChar w c : sound w -> sound (world_of (onChar w c)).
Proof.
  intros (S1 & S2 & S3 & S4). unfold onChar.
  destruct (headersRead w) eqn:H; simpl.
  - (* the body *)
    destruct (S2 eq_refl) as (Hn & n & Hc).
    destruct (length_is (body w ++ [c]) (contentLength w)) eqn:E; simpl.
    + apply length_is_true in E; destruct E as (k & Ek & El).
      unfold sound; simpl; rewrite H; log.
      split; [discriminate|]. split; [intros _; split; [lia | eauto]|].
      split; [|exact S4].
      right; exists k; split; [exact Ek|].
      pose proof (jslength_snoc_pos (body w) c); lia.
    + unfold sound; simpl; rewrite H.
      split; [discriminate|]. split; [intros _; split; [lia | eauto]|].
      split; [|exact S4].
      destruct S3 as [Q | (k & Ek & El)]; [left; exact Q | right].
      exists k; split; [exact Ek|]. rewrite jslength_app; lia.
  - (* the headers *)
    destruct (S1 eq_refl) as (Hc & Hb & Hp & (Q1 & Q2 & Q3) & Hn).
    destruct (text_eqb (slice_last (rawHeaders w) ++ [c]) bodyStartMarker).
    + destruct (parseContentLength (rawHeaders w)) as [n|e]; simpl.
      * unfold sound, quiet; simpl; log. rewrite Hn, Q2, Q3.
        split; [discriminate|]. split; [intros _; split; [lia | eauto]|].
        split; [left; auto | discriminate].
      * unfold sound; rewrite H.
        split; [intros _; unfold quiet; auto|].
        split; [discriminate|]. split; [exact S3 | exact S4].
    + unfold sound; simpl; rewrite H.
      split; [intros _; unfold quiet; auto|].
      split; [discriminate|]. split; [exact S3 | exact S4].
Qed.

Lemma sound_onData w s : sound w -> sound (world_of (onData w s)).
Proof.
  revert w; induction s as [|c s IH]; intros w S; simpl; [exact S|].
  pose proof (sound_onChar w c S) as S'.
  destruct (onChar w c) as [w'|e w']; simpl in *; auto.
Qed.

Lemma sound_enqueue w chunks :
  sound w -> paused w = true -> sound (enqueue w chunks).
Proof.
  intros (S1 & S2 & S3 & S4) P. unfold sound, quiet; simpl.
  repeat split; try apply S1; try apply S2; auto.
  rewrite P; discriminate.
Qed.

Lemma sound_deliver w chunks : sound w -> sound (world_of (deliver w chunks)).
Proof.
  revert w; induction chunks as [|chunk chunks IH]; intros w S; simpl;
    [exact S|].
  destruct (paused w) eqn:P; simpl.
  - apply sound_enqueue; assumption.
  - pose proof (sound_onData w chunk S) as S'.
    destruct (onData w chunk) as [w'|e w']; simpl in *; auto.
Qed.

Lemma sound_text_called w :
  sound w -> headersRead w = true -> sound (text_called w).
Proof.
  intros (S1 & S2 & S3 & S4) H. unfold sound, quiet; simpl.
  rewrite H; log.
  split; [discriminate|]. split; [intros _; exact (S2 H)|].
  split; [|reflexivity].
  destruct S3 as [(Q1 & Q2 & Q3) | R]; [left; auto | right; exact R].
Qed.

Lemma sound_finished w : sound w -> finishing w = true -> sound (finished w).
Proof.
  intros (S1 & S2 & S3 & S4) F.
  assert (NQ : ~ quiet w) by (intros (Q & _); congruence).
  destruct (headersRead w) eqn:H.
  2:{ destruct (S1 eq_refl) as (_ & _ & _ & Q & _); contradiction. }
  destruct S3 as [Q | R]; [contradiction|].
  destruct (S2 eq_refl) as (Hn & Hc).
  unfold sound; simpl; rewrite H.
  split; [discriminate|]. split; [|split; [right; exact R | exact S4]].
  intros _; split; [|exact Hc].
  destruct (onBody w); [exact Hn | log; exact Hn].
Qed.

Lemma sound_react w ev : sound w -> sound (world_of (react w ev)).
Proof.
  intros S; destruct ev; simpl.
  - pose proof (sound_deliver w [chunk] S) as S'. exact S'.
  - destruct (headersRead w) eqn:H; [|exact S].
    apply sound_deliver, sound_text_called; assumption.
  - destruct (finishing w) eqn:F; [apply sound_finished; assumption | exact S].
  - exact S.
Qed.

Lemma sound_run w evs : sound w -> sound (world_of (run w evs)).
Proof.
  revert w; induction evs as [|ev evs IH]; intros w S; simpl; [exact S|].
  pose proof (sound_react w ev S) as S'.
  destruct (react w ev) as [w'|e w']; simpl in *; auto.
Qed.

(** ** Once the headers are read: proofs *)

Lemma run_app w evs1 evs2 :
  run w (evs1 ++ evs2) =
  match run w evs1 with
  | Running w' => run w' evs2
  | Crashed e w' => Crashed e w'
  end.
Proof.
  revert w; induction evs1 as [|ev evs1 IH]; intros w; simpl; [reflexivity|].
  destruct (react w ev); [apply IH | reflexivity].
Qed.

Lemma arrivals_app evs1 evs2 :
  arrivals (evs1 ++ evs2) = arrivals evs1 ++ arrivals evs2.
Proof.
  induction evs1 as [|[c| | |] evs1 IH]; simpl; congruence.
Qed.

Lemma deliver_body w chunks :
  headersRead w = true ->
  exists w',
    deliver w chunks = Running w'
    /\ header_part w' = header_part w
    /\ paused w' = paused w
    /\ (paused w = true ->
        body w' = body w /\ pending w' = pending w ++ chunks
        /\ trace w' = trace w)
    /\ (paused w = false ->
        body w' = body w ++ List.concat chunks /\ pending w' = pending w).
Proof.
  revert w; induction chunks as [|chunk chunks IH]; intros w H.
  - exists w; simpl; rewrite !app_nil_r; repeat split; auto.
  - simpl. destruct (paused w) eqn:P.
    + eexists; split; [reflexivity|]. unfold header_part; simpl.
      repeat split; auto; discriminate.
    + destruct (onData_body w chunk H)
        as (w1 & -> & Hb & Hh & Hr & Hc & Ho & Hp & Hq & Hk & Hn & Hs).
      destruct (IH w1 Hh) as (w2 & -> & E2 & P2 & _ & B2).
      rewrite Hp, P in P2. rewrite Hp, P in B2.
      destruct (B2 eq_refl) as (B & Q).
      exists w2; split; [reflexivity|].
      split; [rewrite E2; unfold header_part; congruence|].
      split; [exact P2|]. split; [discriminate|]. intros _.
      rewrite B, Hb, Q, Hq, <- app_assoc; auto.
Qed.

Lemma react_body w ev :
  sound w -> headersRead w = true ->
  exists w',
    react w ev = Running w'
    /\ header_part w' = header_part w
    /\ body w' ++ List.concat (pending w')
       = (body w ++ List.concat (pending w)) ++ List.concat (arrivals [ev])
    /\ exists added, body w' = body w ++ added.
Proof.
  intros (_ & _ & _ & S4) H. destruct ev as [chunk| | |]; simpl.
  - destruct (deliver_body w [chunk] H) as (w' & E & Hp & P & B1 & B2).
    simpl in E; rewrite E. exists w'; split; [reflexivity|].
    split; [exact Hp|]. destruct (paused w) eqn:Pw.
    + destruct (B1 eq_refl) as (B & Q & _). rewrite B, Q, concat_app; simpl.
      rewrite !app_nil_r, <- app_assoc. split; [reflexivity|].
      exists []; rewrite app_nil_r; reflexivity.
    + destruct (B2 eq_refl) as (B & Q). rewrite B, Q, (S4 eq_refl); simpl.
      rewrite !app_nil_r. split; [reflexivity | eauto].
  - rewrite H.
    destruct (deliver_body (text_called w) (pending w)) as (w' & E & Hp & P & _ & B2);
      [exact H|].
    rewrite E. exists w'; split; [reflexivity|].
    split; [rewrite Hp; unfold header_part; simpl; log; reflexivity|].
    destruct (B2 eq_refl) as (B & Q). rewrite B, Q; simpl.
    rewrite !app_nil_r. split; [reflexivity | eauto].
  - exists (if finishing w then finished w else w).
    destruct (finishing w); (split; [reflexivity|]).
    + split.
      * unfold header_part; simpl. destruct (onBody w); [|log]; reflexivity.
      * simpl; rewrite !app_nil_r; split; [reflexivity|].
        exists []; rewrite app_nil_r; reflexivity.
    + split; [reflexivity|]. simpl; rewrite !app_nil_r.
      split; [reflexivity|]. exists []; rewrite app_nil_r; reflexivity.
  - exists w; split; [reflexivity|]. split; [reflexivity|].
    simpl; rewrite !app_nil_r. split; [reflexivity|].
    exists []; rewrite app_nil_r; reflexivity.
Qed.

Lemma run_body w evs :
  sound w -> headersRead w = true ->
  exists w',
    run w evs = Running w'
    /\ header_part w' = header_part w
    /\ body w' ++ List.concat (pending w')
       = (body w ++ List.concat (pending w)) ++ List.concat (arrivals evs)
    /\ exists added, body w' = body w ++ added.
Proof.
  revert w; induction evs as [|ev evs IH]; intros w S H.
  - exists w; simpl; rewrite !app_nil_r; repeat split; auto.
    exists []; rewrite app_nil_r; reflexivity.
  - destruct (react_body w ev S H) as (w1 & E1 & Hp1 & B1 & a1 & A1).
    pose proof (sound_react w ev S) as S1. rewrite E1 in S1; simpl in S1.
    assert (H1 : headersRead w1 = true).
    { unfold header_part in Hp1; congruence. }
    destruct (IH w1 S1 H1) as (w2 & E2 & Hp2 & B2 & a2 & A2).
    exists w2.
    change (ev :: evs) with ([ev] ++ evs).
    rewrite run_app, arrivals_app, concat_app.
    change (run w [ev]) with
      (match react w ev with
       | Running w' => Running w'
       | Crashed e w' => Crashed e w'
       end).
    rewrite E1. split; [exact E2|].
    split; [congruence|]. split.
    + rewrite B2, B1, <- !app_assoc; reflexivity.
    + exists (a1 ++ a2). rewrite A2, A1, <- app_assoc; reflexivity.
Qed.

(** C10.  Once [headersRead] is true in a state that the reader has
    reached, it stays true whatever happens next: the reader goes on
    without an exception, the raw header text is never touched again,
    the body only grows, all that comes in from then on ends up, in
    order, behind what the body and the paused stream held, and
    [onHeaders] has been called once and is not called again. *)
Theorem headersRead_is_monotone (before after : list event) (w : world) :
  run start before = Running w ->
  headersRead w = true ->
  exists w',
    run start (before ++ after) = Running w'
    /\ headersRead w' = true
    /\ rawHeaders w' = rawHeaders w
    /\ (exists added, body w' = body w ++ added)
    /\ body w' ++ List.concat (pending w')
       = (body w ++ List.concat (pending w)) ++ List.concat (arrivals after)
    /\ notified (trace w) = 1
    /\ notified (trace w') = 1
    /\ forall data,
         exists w'',
           onData w' data = Running w''
           /\ rawHeaders w'' = rawHeaders w
           /\ body w'' = body w' ++ data
           /\ notified (trace w'') = 1.
Proof.
  intros R H.
  pose proof (sound_run start before sound_start) as S. rewrite R in S; simpl in S.
  destruct (run_body w after S H) as (w' & E & Hp & B & A).
  exists w'. rewrite run_app, R. split; [exact E|].
  unfold header_part in Hp. injection Hp as Hh Hr Hc Hn.
  destruct S as (_ & S2 & _). destruct (S2 H) as (N1 & _).
  repeat (split; [congruence || assumption|]).
  intros data.
  destruct (onData_body w' data (eq_trans Hh H))
    as (w'' & E'' & Hb & _ & Hr' & _ & _ & _ & _ & _ & Hn' & _).
  exists w''. repeat split; congruence.
Qed.

Lemma headersRead_is_monotone_witness :
  exists w w',
    run start [Arrive headers_chunk] = Running w
    /\ headersRead w = true
    /\ run start ([Arrive headers_chunk] ++
                  [CallText; Arrive (str "Hello, "); Arrive (str "world!")])
       = Running w'
    /\ headersRead w' = true
    /\ rawHeaders w' = rawHeaders w
    /\ notified (trace w') = 1.
Proof.
  assert (R : run start [Arrive headers_chunk]
              = Running (world_of (run start [Arrive headers_chunk])))
    by (vm_compute; reflexivity).
  assert (H : headersRead (world_of (run start [Arrive headers_chunk])) = true)
    by (vm_compute; reflexivity).
  destruct (@headersRead_is_monotone [Arrive headers_chunk]
              [CallText; Arrive (str "Hello, "); Arrive (str "world!")] _ R H)
    as (w' & E & Hh & Hr & _ & _ & _ & Hn & _).
  exists (world_of (run start [Arrive headers_chunk])), w'.
  exact (conj R (conj H (conj E (conj Hh (conj Hr Hn))))).
Defined.

(** ** Chunk boundaries: proofs *)

Lemma deliver_one w chunk :
  paused w = false -> deliver w [chunk] = onData w chunk.
Proof.
  intros P; simpl; rewrite P. destruct (onData w chunk); reflexivity.
Qed.

Lemma parsed_onData_body w s :
  headersRead w = true -> parsed (onData w s) = parsed (Running w).
Proof.
  intros H.
  destruct (onData_body w s H)
    as (w' & -> & _ & Hh & Hr & Hc & _ & _ & _ & _ & Hn & _).
  unfold parsed, header_part; simpl; congruence.
Qed.

Lemma parsed_run_body w evs :
  sound w -> headersRead w = true -> parsed (run w evs) = parsed (Running w).
Proof.
  intros S H. destruct (run_body w evs S H) as (w' & -> & Hp & _).
  unfold parsed; simpl; congruence.
Qed.

(** A run over events makes of the headers what the listener makes of
    the concatenation of the chunks. *)
Lemma parsed_run w evs :
  sound w ->
  parsed (run w evs) = parsed (onData w (List.concat (arrivals evs))).
Proof.
  revert w; induction evs as [|ev evs IH]; intros w S; [reflexivity|].
  destruct (headersRead w) eqn:H.
  { rewrite parsed_run_body, parsed_onData_body; auto. }
  destruct S as (S1 & S2 & S3 & S4).
  destruct (S1 H) as (Hc & Hb & Hp & (Q & _) & Hn).
  assert (S : sound w) by (unfold sound; auto).
  destruct ev as [chunk| | |]; cbn [run react arrivals].
  - rewrite (deliver_one w chunk Hp), concat_cons, onData_app.
    pose proof (sound_onData w chunk S) as S'.
    destruct (onData w chunk) as [w'|e w']; [apply IH; exact S' | reflexivity].
  - rewrite H; apply IH; exact S.
  - rewrite Q; apply IH; exact S.
  - apply IH; exact S.
Qed.

Lemma arrivals_Arrive cs : arrivals (map Arrive cs) = cs.
Proof. induction cs as [|c cs IH]; simpl; congruence. Qed.

(** The first line feed followed by a carriage return closes a header
    text that carries a content length. *)
Lemma onData_recognised block rest n :
  slice_last block = [LF] ->
  no_LFCR block = true ->
  parseContentLength block = Ok n ->
  parsed (onData start (block ++ [CR] ++ rest))
  = (None, (true, block, Some n, 1)).
Proof.
  intros L N P. rewrite onData_app, onData_header; auto.
  change ([CR] ++ rest) with (CR :: rest). cbn [onData].
  assert (E : onChar (add_header start block) CR
              = Running (headers_done (add_header start block) n)).
  { apply onChar_marker; simpl; auto. rewrite L; reflexivity. }
  rewrite E, parsed_onData_body by reflexivity. reflexivity.
Qed.

(** ** Where the headers end: proofs *)

Lemma starts_app p b : starts p (p ++ b) = true.
Proof.
  induction p as [|x p IH]; simpl; [reflexivity|].
  rewrite N.eqb_refl; exact IH.
Qed.

Lemma occurs_occursb p s : occurs p s -> occursb p s = true.
Proof.
  intros (a & b & ->). induction a as [|x a IH].
  - pose proof (starts_app p b) as E. simpl.
    destruct (p ++ b); simpl; rewrite E; reflexivity.
  - simpl. rewrite IH; apply orb_true_r.
Qed.

Lemma parsed_chunks cs :
  parsed (run start (map Arrive cs)) = parsed (onData start (List.concat cs)).
Proof.
  rewrite (parsed_run start _ sound_start), arrivals_Arrive; reflexivity.
Qed.

Lemma onData_rejected block rest e :
  slice_last block = [LF] ->
  no_LFCR block = true ->
  parseContentLength block = Throw e ->
  parsed (onData start (block ++ [CR] ++ rest))
  = (Some e, (false, block, None, 0)).
Proof.
  intros L N P. rewrite onData_app, onData_header; auto.
  change ([CR] ++ rest) with (CR :: rest). cbn [onData].
  assert (E : onChar (add_header start block) CR
              = Crashed e (add_header start block)).
  { apply onChar_throw; simpl; auto. rewrite L; reflexivity. }
  rewrite E. reflexivity.
Qed.

(** C1, as the code has it.  The reader takes the headers to end at the
    first line feed that a carriage return follows.  Let [block] be a
    text that ends in a line feed and has no line feed followed by a
    carriage return inside.  While the chunks received make up a prefix
    of [block], everything is header text and [onHeaders] has not been
    called.  Once they make up [block], a carriage return and
    anything more, [onHeaders] has been called once, on [block] as the
    header text, when [block] carries a content length; when it does
    not, the listener has thrown and [onHeaders] has not been
    called. *)
Theorem headers_end_at_first_LFCR (block : text) :
  slice_last block = [LF] ->
  no_LFCR block = true ->
  (forall cs q,
     block = List.concat cs ++ q ->
     parsed (run start (map Arrive cs))
     = (None, (false, List.concat cs, None, 0)))
  /\ (forall cs rest n,
        List.concat cs = block ++ [CR] ++ rest ->
        parseContentLength block = Ok n ->
        parsed (run start (map Arrive cs)) = (None, (true, block, Some n, 1)))
  /\ (forall cs rest e,
        List.concat cs = block ++ [CR] ++ rest ->
        parseContentLength block = Throw e ->
        parsed (run start (map Arrive cs))
        = (Some e, (false, block, None, 0))).
Proof.
  intros L N. split; [|split].
  - intros cs q E. rewrite parsed_chunks, onData_header; [reflexivity.. |].
    simpl. rewrite E in N. exact (no_LFCR_app_l _ _ N).
  - intros cs rest n E P. rewrite parsed_chunks, E.
    apply onData_recognised; assumption.
  - intros cs rest e E P. rewrite parsed_chunks, E.
    apply onData_rejected; assumption.
Qed.

Lemma headers_end_at_first_LFCR_witness :
  parsed (run start (map Arrive [str "HTTP/1.1 200"; str " OK" ++ CRLF]))
  = (None, (false, str "HTTP/1.1 200 OK" ++ CRLF, None, 0))
  /\ parsed (run start (map Arrive three_chunks))
     = (None, (true, header_block, Some 13%N, 1)).
Proof.
  assert (L : slice_last header_block = [LF]) by (vm_compute; reflexivity).
  assert (N : no_LFCR header_block = true) by (vm_compute; reflexivity).
  destruct (@headers_end_at_first_LFCR header_block L N) as (Before & At & _).
  split.
  - refine (Before [str "HTTP/1.1 200"; str " OK" ++ CRLF]
              (str "content-length: 13" ++ CRLF) _).
    vm_compute; reflexivity.
  - refine (At three_chunks ([LF] ++ str "Hello, world!") 13%N _ _);
      vm_compute; reflexivity.
Defined.

(** C1, as the specification has it, fails: the headers of this
    response are announced on the third character of the empty line
    that closes them, when no CR LF CR LF has been received. *)
Lemma headers_announced_before_CRLFCRLF :
  ~ occurs (CRLF ++ CRLF) (header_block ++ [CR])
  /\ trace (world_of (run start [Arrive (header_block ++ [CR])]))
     = [Pause; OnHeaders].
Proof.
  split; [|vm_compute; reflexivity].
  intros O. apply occurs_occursb in O. vm_compute in O. discriminate.
Qed.

(** ** The body: proofs *)

(** C2, on the code: the scenario of the specification.  The response
    comes in three chunks and the consumer calls [text()] when the
    headers are announced.  The line feed that ends the empty line is
    counted as the first character of the body: [connection.end] is
    called one character early, on a body that lacks its last
    character; the stream is left flowing, so the last character is
    read all the same; and the promise of [text()] is resolved with the
    line feed and the thirteen characters, not with "Hello, world!". *)
Theorem hello_world_is_off_by_one :
  let c1 := str "HTTP/1.1 200" in
  let c2 := second_chunk in
  let early := world_of (run start [Arrive c1; Arrive c2; CallText;
                                    Arrive (str "Hello, world")]) in
  let final := world_of (run start [Arrive c1; Arrive c2; CallText;
                                    Arrive (str "Hello, world!"); Finished]) in
  trace early = [Pause; OnHeaders; Resume; End]
  /\ body early = [LF] ++ str "Hello, world"
  /\ paused final = false
  /\ body final = [LF] ++ str "Hello, world!"
  /\ trace final
     = [Pause; OnHeaders; Resume; End;
        Resolved 0 ([LF] ++ str "Hello, world!")]
  /\ settled (trace final) <> [Resolved 0 (str "Hello, world!")].
Proof.
  vm_compute. repeat split; discriminate.
Qed.

Lemma sound_reached evs w : run start evs = Running w -> sound w.
Proof.
  intros R. pose proof (sound_run start evs sound_start) as S.
  rewrite R in S; exact S.
Qed.

Lemma headersRead_of_length w n :
  sound w -> contentLength w = Some n -> headersRead w = true.
Proof.
  intros (S1 & _) C. destruct (headersRead w); [reflexivity|].
  destruct (S1 eq_refl) as (E & _); congruence.
Qed.

(** C4, as the specification has it, fails: the headers declare a
    content length of 0, the consumer asks for the body, the stream
    finishes, and the promise of [text()] is still not resolved. *)
Lemma empty_body_is_not_resolved :
  let w := world_of (run start [Arrive empty_response; CallText; Finished]) in
  contentLength w = Some 0%N
  /\ onBody w = Resolve 0
  /\ trace w = [Pause; OnHeaders; Resume].
Proof. vm_compute. repeat split. Qed.

(** C4, as the code has it.  The length of the body is compared with
    the declared length only after a character has been added to the
    body.  When the headers declare a content length of 0, whatever has
    happened to the reader, [connection.end] has not been called, no
    callback waits for the stream to finish and no promise of [text()]
    has been resolved. *)
Theorem zero_length_body_never_resolves (evs : list event) :
  contentLength (world_of (run start evs)) = Some 0%N ->
  ended (trace (world_of (run start evs))) = 0
  /\ settled (trace (world_of (run start evs))) = []
  /\ finishing (world_of (run start evs)) = false.
Proof.
  intros C. destruct (sound_run start evs sound_start) as (_ & _ & S3 & _).
  destruct S3 as [(Q1 & Q2 & Q3) | (n & E & L)]; [auto|].
  rewrite C in E; injection E as <-. simpl in L; lia.
Qed.

Lemma zero_length_body_never_resolves_witness :
  let evs := [Arrive empty_response; CallText; Arrive (str "later");
              Finished; Closed] in
  ended (trace (world_of (run start evs))) = 0
  /\ settled (trace (world_of (run start evs))) = []
  /\ finishing (world_of (run start evs)) = false.
Proof.
  refine (@zero_length_body_never_resolves
            [Arrive empty_response; CallText; Arrive (str "later");
             Finished; Closed] _).
  vm_compute; reflexivity.
Defined.

(** C7, as the specification has it, fails: five of the thirteen
    characters come in, the connection is closed, and nothing is done
    to the promise of [text()]: it is neither resolved nor rejected. *)
Lemma short_body_is_not_rejected :
  let w := world_of (run start [Arrive headers_chunk; CallText;
                                Arrive (str "Hello"); Closed; Finished]) in
  contentLength w = Some 13%N
  /\ body w = [LF] ++ str "Hello"
  /\ onBody w = Resolve 0
  /\ trace w = [Pause; OnHeaders; Resume].
Proof. vm_compute. repeat split. Qed.

(** C7, as the code has it.  The reader listens to 'data' only: the
    closing of the connection reaches none of its code.  When the body
    and the chunks held back by the paused stream are shorter than the
    declared length as the connection closes, the promise of [text()]
    is never settled, whatever follows that brings no more data. *)
Theorem short_body_stays_pending
  (evs later : list event) (n : N) (w : world) :
  run start evs = Running w ->
  contentLength w = Some n ->
  jslength (body w ++ List.concat (pending w)) < N.to_nat n ->
  arrivals later = [] ->
  react w Closed = Running w
  /\ exists w',
       run start (evs ++ Closed :: later) = Running w'
       /\ settled (trace w') = []
       /\ ended (trace w') = 0
       /\ finishing w' = false.
Proof.
  intros R C L A. split; [reflexivity|].
  pose proof (sound_reached evs w R) as S.
  pose proof (headersRead_of_length w n S C) as H.
  destruct (run_body w (Closed :: later) S H) as (w' & E & Hp & B & _).
  exists w'. rewrite run_app, R. split; [exact E|].
  assert (S' : sound w').
  { pose proof (sound_run w (Closed :: later) S) as X.
    rewrite E in X; exact X. }
  assert (C' : contentLength w' = Some n).
  { unfold header_part in Hp; congruence. }
  simpl arrivals in B. rewrite A in B. simpl in B. rewrite app_nil_r in B.
  destruct S' as (_ & _ & S3 & _).
  destruct S3 as [(Q1 & Q2 & Q3) | (k & Ek & Lk)]; [auto|].
  exfalso. rewrite C' in Ek; injection Ek as <-.
  rewrite <- B, jslength_app in L. lia.
Qed.

Lemma short_body_stays_pending_witness :
  exists w',
    run start ([Arrive headers_chunk; CallText; Arrive (str "Hello")]
               ++ Closed :: [Finished; CallText]) = Running w'
    /\ settled (trace w') = []
    /\ ended (trace w') = 0
    /\ finishing w' = false.
Proof.
  pose (evs := [Arrive headers_chunk; CallText; Arrive (str "Hello")]).
  assert (R : run start evs = Running (world_of (run start evs)))
    by (vm_compute; reflexivity).
  assert (C : contentLength (world_of (run start evs)) = Some 13%N)
    by (vm_compute; reflexivity).
  assert (L : jslength (body (world_of (run start evs))
                        ++ List.concat (pending (world_of (run start evs))))
              < N.to_nat 13).
  { vm_compute. lia. }
  exact (proj2 (@short_body_stays_pending evs [Finished; CallText] 13%N _
                  R C L eq_refl)).
Defined.

(** ** Pausing and resuming: proofs *)

(** While the stream is paused and [text()] is not called, what comes
    in is held back. *)
Lemma run_paused w evs :
  headersRead w = true ->
  paused w = true ->
  forallb (fun ev => negb (is_CallText ev)) evs = true ->
  exists w',
    run w evs = Running w'
    /\ headersRead w' = true
    /\ paused w' = true
    /\ body w' = body w
    /\ pending w' = pending w ++ arrivals evs.
Proof.
  revert w; induction evs as [|ev evs IH]; intros w H P F.
  - exists w; simpl; rewrite app_nil_r; auto.
  - simpl in F; apply andb_true_iff in F; destruct F as (F1 & F).
    assert (X : exists w1, react w ev = Running w1
                           /\ headersRead w1 = true /\ paused w1 = true
                           /\ body w1 = body w
                           /\ pending w1 = pending w ++ arrivals [ev]).
    { destruct ev as [chunk| | |]; simpl; try discriminate.
      - rewrite P. eexists; split; [reflexivity|]; simpl; auto.
      - exists (if finishing w then finished w else w).
        destruct (finishing w); simpl; rewrite app_nil_r; auto.
      - exists w; rewrite app_nil_r; auto. }
    destruct X as (w1 & E1 & H1 & P1 & B1 & Q1).
    destruct (IH w1 H1 P1 F) as (w2 & E2 & H2 & P2 & B2 & Q2).
    exists w2. simpl run; rewrite E1. split; [exact E2|].
    repeat split; try congruence.
    rewrite Q2, Q1, <- app_assoc.
    change (ev :: evs) with ([ev] ++ evs). rewrite arrivals_app; reflexivity.
Qed.

(** Reading the body adds to the log, and takes nothing from it. *)
Lemma onData_body_trace w s w' :
  headersRead w = true -> onData w s = Running w' ->
  exists t, trace w' = trace w ++ t.
Proof.
  revert w; induction s as [|c s IH]; intros w H R; simpl in R.
  - injection R as <-; exists []; rewrite app_nil_r; reflexivity.
  - unfold onChar in R; rewrite H in R; simpl in R.
    destruct (length_is (body w ++ [c]) (contentLength w)).
    + destruct (IH (end_connection (append_body w c)) H R) as (t & ->).
      exists (End :: t). simpl. rewrite <- app_assoc; reflexivity.
    + destruct (IH (append_body w c) H R) as (t & ->).
      exists t; reflexivity.
Qed.

Lemma deliver_body_trace w chunks w' :
  headersRead w = true -> deliver w chunks = Running w' ->
  exists t, trace w' = trace w ++ t.
Proof.
  revert w; induction chunks as [|chunk chunks IH]; intros w H R; simpl in R.
  - injection R as <-; exists []; rewrite app_nil_r; reflexivity.
  - destruct (paused w).
    + injection R as <-; exists []; simpl; rewrite app_nil_r; reflexivity.
    + destruct (onData w chunk) as [w1|] eqn:E; [|discriminate].
      destruct (@onData_body_trace w chunk w1 H E) as (t1 & T1).
      destruct (onData_body w chunk H) as (w1' & E' & _ & H1 & _).
      rewrite E in E'; injection E' as <-.
      destruct (IH w1 H1 R) as (t2 & ->).
      exists (t1 ++ t2). rewrite T1, <- app_assoc; reflexivity.
Qed.

(** A chunk that takes the reader from the headers to the body: the
    characters up to the closing carriage return went to the header
    text, the characters behind it to the body. *)
Lemma onData_crosses w chunk w1 :
  headersRead w = false ->
  onData w chunk = Running w1 ->
  headersRead w1 = true ->
  exists a b t,
    chunk = a ++ [CR] ++ b
    /\ rawHeaders w1 = rawHeaders w ++ a
    /\ body w1 = body w ++ b
    /\ paused w1 = true
    /\ pending w1 = pending w
    /\ trace w1 = trace w ++ [Pause; OnHeaders] ++ t.
Proof.
  revert w; induction chunk as [|c chunk IH]; intros w H R H1.
  - simpl in R; injection R as <-; congruence.
  - simpl in R. unfold onChar in R. rewrite H in R; simpl in R.
    destruct (text_eqb (slice_last (rawHeaders w) ++ [c]) bodyStartMarker)
      eqn:M.
    + apply marker_test in M; destruct M as (_ & ->).
      destruct (parseContentLength (rawHeaders w)) as [n|e]; [|discriminate].
      destruct (onData_body (headers_done w n) chunk eq_refl)
        as (w' & E & Hb & _ & Hr & _ & _ & Hp & Hq & _).
      destruct (@onData_body_trace (headers_done w n) chunk w' eq_refl E)
        as (t & T).
      rewrite E in R; injection R as <-.
      exists [], chunk, t. simpl in *. rewrite app_nil_r, <- app_assoc in *.
      repeat split; auto.
    + destruct (IH (append_header w c) H R H1)
        as (a & b & t & E & Hr & Hb & Hp & Hq & T).
      exists (c :: a), b, t. simpl in *. rewrite <- app_assoc in Hr.
      repeat split; auto. rewrite E; reflexivity.
Qed.

(** C8, as the code has it.  The chunk that closes the headers pauses
    the stream as soon as the closing carriage return is read, before
    anything else is done; the characters that follow in that same
    chunk are added to the body at once.  From then on, as long as
    [text()] is not called, the body does not change and every chunk
    that comes in is held back by the paused stream; the call of
    [text()] resumes the stream, and the chunks held back reach the
    body in their order. *)
Theorem paused_until_text_is_called
  (before later : list event) (chunk : text) (w w1 : world) :
  run start before = Running w ->
  headersRead w = false ->
  react w (Arrive chunk) = Running w1 ->
  headersRead w1 = true ->
  forallb (fun ev => negb (is_CallText ev)) later = true ->
  paused w1 = true
  /\ (exists a b t,
        chunk = a ++ [CR] ++ b
        /\ rawHeaders w1 = rawHeaders w ++ a
        /\ body w1 = b
        /\ trace w1 = trace w ++ [Pause; OnHeaders] ++ t)
  /\ exists w2,
       run w1 later = Running w2
       /\ paused w2 = true
       /\ body w2 = body w1
       /\ pending w2 = arrivals later
       /\ exists w3 t,
            react w2 CallText = Running w3
            /\ paused w3 = false
            /\ pending w3 = []
            /\ body w3 = body w1 ++ List.concat (arrivals later)
            /\ trace w3 = trace w2 ++ Resume :: t.
Proof.
  intros R H A H1 F.
  pose proof (sound_reached before w R) as S.
  destruct S as (S1 & _). destruct (S1 H) as (_ & Hb & Hp & _).
  change (react w (Arrive chunk)) with (deliver w [chunk]) in A.
  rewrite (deliver_one w chunk Hp) in A.
  destruct (onData_crosses w chunk w1 H A H1)
    as (a & b & t & E & Hr & Hb1 & Hp1 & Hq1 & T).
  rewrite Hb in Hb1; simpl in Hb1.
  assert (Q1 : pending w1 = []).
  { rewrite Hq1. pose proof (sound_reached before w R) as (_ & _ & _ & S4).
    exact (S4 Hp). }
  split; [exact Hp1|]. split; [exists a, b, t; auto|].
  destruct (@run_paused w1 later H1 Hp1 F) as (w2 & E2 & H2 & P2 & B2 & Q2).
  rewrite Q1 in Q2; simpl in Q2.
  exists w2. repeat (split; [assumption|]).
  simpl react; rewrite H2.
  destruct (deliver_body (text_called w2) (pending w2) H2)
    as (w3 & E3 & _ & P3 & _ & B3).
  destruct (B3 eq_refl) as (B & Q).
  destruct (@deliver_body_trace (text_called w2) (pending w2) w3 H2 E3)
    as (t3 & T3).
  exists w3, t3. split; [exact E3|]. split; [exact P3|].
  split; [exact Q|]. split.
  - rewrite B; simpl. rewrite B2, Q2; reflexivity.
  - rewrite T3; simpl. rewrite <- app_assoc; reflexivity.
Qed.

Lemma paused_until_text_is_called_witness :
  exists w2,
    run (world_of (run start [Arrive (str "HTTP/1.1 200");
                              Arrive (second_chunk ++ str "Hel")]))
        [Arrive (str "lo, "); Closed; Arrive (str "world!")]
    = Running w2
    /\ paused w2 = true
    /\ body w2 = [LF] ++ str "Hel"
    /\ pending w2 = [str "lo, "; str "world!"].
Proof.
  pose (before := [Arrive (str "HTTP/1.1 200")]).
  pose (chunk := second_chunk ++ str "Hel").
  pose (later := [Arrive (str "lo, "); Closed; Arrive (str "world!")]).
  pose (w := world_of (run start before)).
  pose (w1 := world_of (react w (Arrive chunk))).
  assert (R : run start before = Running w) by (vm_compute; reflexivity).
  assert (H : headersRead w = false) by (vm_compute; reflexivity).
  assert (A : react w (Arrive chunk) = Running w1) by (vm_compute; reflexivity).
  assert (H1 : headersRead w1 = true) by (vm_compute; reflexivity).
  assert (F : forallb (fun ev => negb (is_CallText ev)) later = true)
    by (vm_compute; reflexivity).
  destruct (@paused_until_text_is_called before later chunk w w1 R H A H1 F)
    as (_ & _ & w2 & E2 & P2 & B2 & Q2 & _).
  exists w2. split; [|split; [exact P2 | split]].
  - rewrite <- E2. vm_compute; reflexivity.
  - rewrite B2. vm_compute; reflexivity.
  - rewrite Q2. vm_compute; reflexivity.
Defined.

(** C8, as the specification has it, fails: the whole response comes in
    one chunk, [text()] has not been called, and the body is in the
    buffer, the line feed of the empty line first. *)
Lemma body_buffered_before_text_is_called :
  let w := world_of (run start [Arrive hello]) in
  promises w = 0
  /\ body w = [LF] ++ str "Hello, world!"
  /\ trace w = [Pause; OnHeaders; End].
Proof. vm_compute. repeat split. Qed.

(** ** The content length: proofs *)

Lemma strip_ci_spec p s rest :
  strip_ci p s = Some rest <-> exists k, s = k ++ rest /\ map lower k = p.
Proof.
  revert s; induction p as [|a p IH]; intros s; simpl.
  - split.
    + intros E; injection E as ->. exists []; auto.
    + intros (k & -> & M). destruct k; [reflexivity | discriminate].
  - destruct s as [|c s].
    + split; [discriminate|]. intros ([|x k] & E & M); discriminate.
    + destruct (N.eqb_spec (lower c) a) as [<-|NE].
      * rewrite IH. split.
        -- intros (k & -> & <-). exists (c :: k); auto.
        -- intros ([|x k] & E & M); [discriminate|].
           injection E as -> ->. injection M as M. eauto.
      * split; [discriminate|]. intros ([|x k] & E & M); [discriminate|].
        injection E as -> ->. injection M as M _. contradiction.
Qed.

Lemma match_here_declared k d rest :
  map lower k = key -> is_digit d = true ->
  match_here (k ++ d :: rest) = Some (digits (d :: rest)).
Proof.
  intros M D. unfold match_here.
  assert (E : strip_ci key (k ++ d :: rest) = Some (d :: rest)).
  { apply strip_ci_spec; eauto. }
  rewrite E. simpl. rewrite D. reflexivity.
Qed.

Lemma match_here_declares s ds :
  match_here s = Some ds ->
  exists k d rest, s = k ++ d :: rest /\ map lower k = key /\ is_digit d = true.
Proof.
  unfold match_here. destruct (strip_ci key s) as [r|] eqn:E; [|discriminate].
  apply strip_ci_spec in E; destruct E as (k & -> & M).
  destruct r as [|d r]; simpl; [discriminate|].
  destruct (is_digit d) eqn:D; [|discriminate].
  intros _. exists k, d, r; auto.
Qed.

Lemma regex_match_declares h :
  (forall ds, regex_match h = Some ds -> declares h)
  /\ (regex_match h = None -> ~ declares h).
Proof.
  induction h as [|x h (IH1 & IH2)].
  - split.
    + intros ds E. simpl in E.
      destruct (match_here []) eqn:M; [|discriminate].
      destruct (match_here_declares _ _ M) as (k & d & r & E' & _).
      destruct k; discriminate.
    + intros _ (pre & k & d & r & E & _).
      destruct pre; [destruct k|]; discriminate.
  - split.
    + intros ds E. simpl in E.
      destruct (match_here (x :: h)) eqn:M.
      * destruct (match_here_declares _ _ M) as (k & d & r & E' & Mk & D).
        exists [], k, d, r; auto.
      * destruct (IH1 ds E) as (pre & k & d & r & -> & Mk & D).
        exists (x :: pre), k, d, r; auto.
    + intros E (pre & k & d & r & E' & Mk & D). simpl in E.
      destruct (match_here (x :: h)) eqn:M; [discriminate|].
      destruct pre as [|y pre].
      * simpl in E'. rewrite E', (match_here_declared k d r Mk D) in M.
        discriminate.
      * injection E' as -> ->. apply (IH2 E). exists pre, k, d, r; auto.
Qed.

Lemma digits_run ds rest :
  forallb is_digit ds = true -> digits rest = [] -> digits (ds ++ rest) = ds.
Proof.
  intros F R. induction ds as [|d ds IH]; simpl; [exact R|].
  simpl in F; apply andb_true_iff in F; destruct F as (D & F).
  rewrite D, IH; auto.
Qed.

Lemma regex_match_here s ds :
  match_here s = Some ds -> regex_match s = Some ds.
Proof. intros M; destruct s; cbn [regex_match]; rewrite M; reflexivity. Qed.

(** The leftmost match gives the group. *)
Lemma regex_match_first pre k ds rest :
  map lower k = key ->
  ds <> [] -> forallb is_digit ds = true -> digits rest = [] ->
  (forall pre' k' d' rest',
     pre ++ k ++ ds ++ rest = pre' ++ k' ++ d' :: rest' ->
     map lower k' = key -> is_digit d' = true ->
     List.length pre <= List.length pre') ->
  regex_match (pre ++ k ++ ds ++ rest) = Some ds.
Proof.
  intros Mk NE F R. induction pre as [|x pre IH]; intros First.
  - destruct ds as [|d ds]; [contradiction|].
    assert (D : is_digit d = true).
    { simpl in F; apply andb_true_iff in F; tauto. }
    assert (M : match_here (k ++ (d :: ds) ++ rest) = Some (d :: ds)).
    { change ((d :: ds) ++ rest) with (d :: ds ++ rest).
      rewrite (match_here_declared k d (ds ++ rest) Mk D).
      change (d :: ds ++ rest) with ((d :: ds) ++ rest).
      rewrite digits_run; auto. }
    apply regex_match_here; exact M.
  - change ((x :: pre) ++ k ++ ds ++ rest) with (x :: pre ++ k ++ ds ++ rest).
    simpl. destruct (match_here (x :: pre ++ k ++ ds ++ rest)) eqn:M.
    + destruct (match_here_declares _ _ M) as (k' & d' & r' & E' & Mk' & D').
      specialize (First [] k' d' r' E' Mk' D'). simpl in First; lia.
    + apply IH. intros pre' k' d' r' E' Mk' D'.
      specialize (First (x :: pre') k' d' r').
      simpl in First. rewrite E' in First.
      specialize (First eq_refl Mk' D'). lia.
Qed.

(** C6, as the code has it.  Resolving the content length throws the
    untyped [TypeError] of reading a property of [null] exactly when
    the header text holds no "content-length: ", in any letter case,
    directly followed by a decimal digit: the header is absent, or its
    value does not start with a digit.  In every other case a number is
    returned; when the run of digits behind the first such place
    denotes a value below 2^53, where [Number] is exact, the number
    returned is that value, whatever follows the digits. *)
Theorem content_length_or_TypeError (h : text) :
  (declares h -> exists n, parseContentLength h = Ok n)
  /\ (~ declares h -> parseContentLength h = Throw null_groups)
  /\ (forall pre k ds rest,
        h = pre ++ k ++ ds ++ rest ->
        map lower k = key ->
        ds <> [] -> forallb is_digit ds = true -> digits rest = [] ->
        (forall pre' k' d' rest',
           h = pre' ++ k' ++ d' :: rest' ->
           map lower k' = key -> is_digit d' = true ->
           List.length pre <= List.length pre') ->
        (Number ds < 2 ^ 53)%N ->
        parseContentLength h = Ok (Number ds)).
Proof.
  destruct (regex_match_declares h) as (Y & N).
  unfold parseContentLength. split; [|split].
  - intros D. destruct (regex_match h) as [ds|]; [eauto|].
    exfalso; exact (N eq_refl D).
  - intros D. destruct (regex_match h) as [ds|] eqn:E; [|reflexivity].
    exfalso; exact (D (Y ds eq_refl)).
  - intros pre k ds rest -> Mk NE F R First _.
    rewrite (regex_match_first pre k ds rest Mk NE F R First). reflexivity.
Qed.

(** C6, as the specification has it, fails: without the header, and
    with a negative value, the error is the untyped [TypeError]; a
    value that only starts with digits is accepted. *)
Lemma content_length_errors_are_untyped :
  parseContentLength (str "HTTP/1.1 200 OK" ++ CRLF)
  = Throw (TypeError "Cannot read properties of null (reading 'groups')")
  /\ parseContentLength (str "HTTP/1.1 200 OK" ++ CRLF
                         ++ str "content-length: -5" ++ CRLF)
     = Throw (TypeError "Cannot read properties of null (reading 'groups')")
  /\ parseContentLength (str "HTTP/1.1 200 OK" ++ CRLF
                         ++ str "Content-Length: 12abc" ++ CRLF)
     = Ok 12%N.
Proof. vm_compute. repeat split. Qed.

Lemma content_length_or_TypeError_witness :
  (exists n, parseContentLength header_block = Ok n)
  /\ parseContentLength (str "Content-Length: 13" ++ CRLF) = Ok 13%N.
Proof.
  split.
  - refine (proj1 (content_length_or_TypeError header_block) _).
    exists (str "HTTP/1.1 200 OK" ++ CRLF), (str "content-length: "),
      49%N, (str "3" ++ CRLF).
    vm_compute; repeat split.
  - refine (proj2 (proj2 (content_length_or_TypeError
                            (str "Content-Length: 13" ++ CRLF)))
              [] (str "Content-Length: ") (str "13") CRLF _ _ _ _ _ _ _);
      try (vm_compute; reflexivity).
    + discriminate.
    + intros; apply Nat.le_0_l.
Defined.

(** ** The request: proofs *)

Lemma In_CR_request (p h : text) :
  In CR (str "GET " ++ p ++ str " HTTP/1.1" ++ [LF] ++ str "host: " ++ h
         ++ [LF; LF]) ->
  In CR p \/ In CR h.
Proof.
  intros I.
  repeat (apply in_app_or in I; destruct I as [I | I]);
    auto; exfalso; vm_compute in I; intuition discriminate.
Qed.

(** C9, as the code has it.  For every URL that the constructor
    accepts, once the name is resolved and the connection made, one
    text is written to the connection: the request line "GET", a
    space, the path, a space, "HTTP/1.1", then the header "host: " with
    the host name of the URL, then an empty line, each of the three
    ended by a single line feed.  It holds no carriage return, unless
    the path or the host name does. *)
Theorem request_lines_end_in_LF
  (newURL : text -> result URL) (lookup : text -> result DnsRecord)
  (connects : text + N -> text -> bool)
  (urlString : text) (url : URL) (dnsRecord : DnsRecord) :
  newURL urlString = Ok url ->
  lookup (hostname url) = Ok dnsRecord ->
  connects (port_or_80 (port url)) (address dnsRecord) = true ->
  writes (ops_of (fetch newURL lookup connects urlString))
  = [lines [LF] [str "GET" ++ [SP] ++ pathname url ++ [SP] ++ str "HTTP/1.1";
                 str "host: " ++ hostname url;
                 []]]
  /\ forall data,
       In data (writes (ops_of (fetch newURL lookup connects urlString))) ->
       In CR data -> In CR (pathname url) \/ In CR (hostname url).
Proof.
  intros U L C. unfold fetch. rewrite U, L, C.
  assert (E : request url
              = lines [LF] [str "GET" ++ [SP] ++ pathname url ++ [SP]
                            ++ str "HTTP/1.1";
                            str "host: " ++ hostname url; []]).
  { unfold request, lines. simpl. rewrite <- !app_assoc. reflexivity. }
  split; [simpl; rewrite E; reflexivity|].
  intros data [<- | []] I. unfold request in I.
  rewrite <- !app_assoc in I.
  exact (In_CR_request (pathname url) (hostname url) I).
Qed.

Lemma request_lines_end_in_LF_witness :
  writes (ops_of (fetch node_URL node_lookup reachable
                    (str "http://example.com")))
  = [str "GET / HTTP/1.1" ++ [LF] ++ str "host: example.com" ++ [LF; LF]].
Proof.
  refine (eq_trans
            (proj1 (request_lines_end_in_LF node_URL node_lookup reachable
                      (str "http://example.com") (example_com "http:")
                      {| address := str "93.184.216.34"; family := 4%N |}
                      _ _ _)) _);
    vm_compute; reflexivity.
Defined.

(** C9, as the specification has it, fails: the request written for
    http://example.com ends its lines with a line feed alone. *)
Lemma request_is_not_CRLF :
  writes (ops_of (fetch node_URL node_lookup reachable
                    (str "http://example.com")))
  = [str "GET / HTTP/1.1" ++ [LF] ++ str "host: example.com" ++ [LF; LF]]
  /\ writes (ops_of (fetch node_URL node_lookup reachable
                       (str "http://example.com")))
     <> [lines CRLF [str "GET / HTTP/1.1"; str "host: example.com"; []]].
Proof. vm_compute. split; [reflexivity | discriminate]. Qed.

(** ** The scheme: proofs *)

(** C5, as the code has it.  [fetch] never looks at the scheme.  For
    every URL that the constructor accepts, whatever its scheme, the
    host name is looked up first; the promise is not rejected before
    that; and what [fetch] does is what it does for any other URL with
    the same host name, port and path. *)
Theorem fetch_ignores_the_scheme
  (newURL : text -> result URL) (lookup : text -> result DnsRecord)
  (connects : text + N -> text -> bool)
  (urlString : text) (url : URL) :
  newURL urlString = Ok url ->
  (exists rest,
     ops_of (fetch newURL lookup connects urlString)
     = DnsLookup (hostname url) :: rest)
  /\ (forall urlString' url',
        newURL urlString' = Ok url' ->
        hostname url' = hostname url ->
        port url' = port url ->
        pathname url' = pathname url ->
        fetch newURL lookup connects urlString'
        = fetch newURL lookup connects urlString).
Proof.
  intros U. split.
  - unfold fetch. rewrite U.
    destruct (lookup (hostname url)) as [r|e]; [|simpl; eauto].
    destruct (connects (port_or_80 (port url)) (address r)); simpl; eauto.
  - intros u' url' U' Hh Hp Hn. unfold fetch, request.
    rewrite U, U', Hh, Hp, Hn. reflexivity.
Qed.

Lemma fetch_ignores_the_scheme_witness :
  fetch node_URL node_lookup reachable (str "ftp://example.com")
  = fetch node_URL node_lookup reachable (str "http://example.com").
Proof.
  refine (proj2 (fetch_ignores_the_scheme node_URL node_lookup reachable
                   (str "http://example.com") (example_com "http:") _)
            (str "ftp://example.com") (example_com "ftp:") _ _ _ _);
    vm_compute; reflexivity.
Defined.

(** C5, as the specification has it, fails: for ftp://example.com the
    name is looked up, the connection is made to port 80 and the
    request is written. *)
Lemma ftp_is_fetched :
  fetch node_URL node_lookup reachable (str "ftp://example.com")
  = Reading [DnsLookup (str "example.com");
             CreateConnection (inr 80%N) (str "93.184.216.34");
             ConnectionWrite (str "GET / HTTP/1.1" ++ [LF]
                              ++ str "host: example.com" ++ [LF; LF])]
            start.
Proof. vm_compute. reflexivity. Qed.

(** ** The end of the body: proofs *)

Lemma resumes_app a b : resumes (a ++ b) = resumes a + resumes b.
Proof. unfold resumes; rewrite filter_app, List.length_app; reflexivity. Qed.

Lemma latest_only_app c a b :
  latest_only c (a ++ b) = latest_only c a && latest_only (c + resumes a) b.
Proof.
  revert c; induction a as [|e a IH]; intros c; simpl.
  - change (resumes []) with 0. rewrite Nat.add_0_r; reflexivity.
  - destruct e; rewrite ?IH;
      try (change (resumes (?x :: a)) with (resumes a); reflexivity).
    + change (resumes (Resume :: a)) with (S (resumes a)).
      rewrite Nat.add_succ_r; reflexivity.
    + change (resumes (Resolved promise value :: a)) with (resumes a).
      rewrite andb_assoc; reflexivity.
Qed.

Lemma In_settled k v t : In (Resolved k v) t -> In (Resolved k v) (settled t).
Proof. intros I; unfold settled; apply filter_In; auto. Qed.

Lemma In_snoc_other (e x : effect) t : In x (t ++ [e]) -> x <> e -> In x t.
Proof.
  intros I N. apply in_app_or in I. destruct I as [I | [E | []]]; [exact I|].
  congruence.
Qed.

Lemma tidy_start : tidy start.
Proof.
  unfold tidy; simpl.
  split; [auto|]. split; [discriminate|]. split; [reflexivity|].
  split; [discriminate|]. split; [intros k v []|]. auto.
Qed.

(** A step that adds one effect, not a resolution, to the log. *)
Lemma tidy_add_effect (t : list effect) (e : effect) k v :
  is_Resolved e = false ->
  In (Resolved k v) (t ++ [e]) -> In (Resolved k v) t.
Proof.
  intros R I. apply (In_snoc_other e (Resolved k v) t I).
  intros <-; discriminate.
Qed.

Lemma tidy_onChar w c : sound w -> tidy w -> tidy (world_of (onChar w c)).
Proof.
  intros (S1 & S2 & S3 & S4) (T1 & T2 & T3 & T4 & T5 & T6 & T7 & T8).
  unfold onChar. destruct (headersRead w) eqn:H; simpl.
  - (* the body *)
    destruct (length_is (body w ++ [c]) (contentLength w)) eqn:E; simpl.
    + apply length_is_true in E; destruct E as (n & En & El).
      assert (E0 : ended (trace w) = 0).
      { destruct (ended (trace w)) as [|[|m]] eqn:X; [reflexivity | | lia].
        destruct (T4 eq_refl) as (n' & En' & L').
        rewrite En in En'; injection En' as <-.
        rewrite jslength_app in El; simpl in El.
        pose proof (units_pos c); lia. }
      pose proof (T3 E0) as Q.
      unfold tidy; simpl.
      rewrite ended_app, settled_app, resumes_app, latest_only_app, E0, Q, T8.
      change (ended [End]) with 1. change (settled [End]) with (@nil effect).
      change (resumes [End]) with 0. rewrite !Nat.add_0_r.
      split; [lia|]. split; [auto|]. split; [discriminate|].
      split; [intros _; exists n; split; [exact En | lia]|].
      split.
      { intros k v I. apply tidy_add_effect in I; [|reflexivity].
        apply In_settled in I. rewrite Q in I. destruct I. }
      split; [exact T6|]. split; [exact T7 | reflexivity].
    + unfold tidy; simpl.
      split; [exact T1|]. split; [exact T2|]. split; [exact T3|].
      split.
      { intros X. destruct (T4 X) as (n & En & L). exists n.
        split; [exact En|]. rewrite jslength_app; lia. }
      split.
      { intros k v I. destruct (T5 k v I) as (Q & F & (more & M) & N).
        split; [exact Q|]. split; [exact F|]. split; [|exact N].
        exists (more ++ [c]). rewrite M, <- app_assoc; reflexivity. }
      split; [exact T6|]. split; [exact T7 | exact T8].
  - (* the headers *)
    destruct (S1 eq_refl) as (Hc & Hb & Hp & (Q1 & Q2 & Q3) & Hn).
    assert (NoR : forall k v, ~ In (Resolved k v) (trace w)).
    { intros k v I. apply In_settled in I. rewrite Q3 in I. destruct I. }
    destruct (text_eqb (slice_last (rawHeaders w) ++ [c]) bodyStartMarker).
    + destruct (parseContentLength (rawHeaders w)) as [n|e]; simpl.
      * unfold tidy; simpl.
        rewrite ended_app, settled_app, resumes_app, latest_only_app, Q2, Q3, T8.
        change (ended [Pause; OnHeaders]) with 0.
        change (settled [Pause; OnHeaders]) with (@nil effect).
        change (resumes [Pause; OnHeaders]) with 0. rewrite !Nat.add_0_r.
        split; [lia|]. split; [intros X; congruence|].
        split; [reflexivity|]. split; [discriminate|].
        split.
        { intros k v I. exfalso. apply (NoR k v).
          apply in_app_or in I. destruct I as [I | [I | [I | []]]];
            [exact I | discriminate | discriminate]. }
        split; [exact T6|]. split; [exact T7 | reflexivity].
      * unfold tidy. repeat (split; [assumption|]). assumption.
    + unfold tidy; simpl. repeat (split; [assumption|]). assumption.
Qed.

Lemma tidy_onData w s :
  sound w -> tidy w -> tidy (world_of (onData w s)).
Proof.
  revert w; induction s as [|c s IH]; intros w S T; simpl; [exact T|].
  pose proof (sound_onChar w c S) as S'.
  pose proof (tidy_onChar w c S T) as T'.
  destruct (onChar w c) as [w'|e w']; simpl in *; auto.
Qed.

Lemma tidy_deliver w chunks :
  sound w -> tidy w -> tidy (world_of (deliver w chunks)).
Proof.
  revert w; induction chunks as [|chunk chunks IH]; intros w S T; simpl;
    [exact T|].
  destruct (paused w) eqn:P; simpl; [exact T|].
  pose proof (sound_onData w chunk S) as S'.
  pose proof (tidy_onData w chunk S T) as T'.
  destruct (onData w chunk) as [w'|e w']; simpl in *; auto.
Qed.

Lemma tidy_text_called w : tidy w -> tidy (text_called w).
Proof.
  intros (T1 & T2 & T3 & T4 & T5 & T6 & T7 & T8).
  unfold tidy; simpl.
  rewrite ended_app, settled_app, resumes_app, latest_only_app, T8.
  change (ended [Resume]) with 0. change (settled [Resume]) with (@nil effect).
  change (resumes [Resume]) with 1. rewrite !Nat.add_0_r, app_nil_r.
  split; [exact T1|]. split; [exact T2|]. split; [exact T3|].
  split; [exact T4|]. split.
  { intros k v I. apply tidy_add_effect in I; [|reflexivity].
    exact (T5 k v I). }
  split; [rewrite T6; lia|]. split; [lia | reflexivity].
Qed.

Lemma tidy_finished w : tidy w -> finishing w = true -> tidy (finished w).
Proof.
  intros (T1 & T2 & T3 & T4 & T5 & T6 & T7 & T8) F.
  destruct (T2 F) as (E1 & Q).
  destruct (T4 E1) as (n & En & L).
  assert (NoR : forall k v, ~ In (Resolved k v) (trace w)).
  { intros k v I. apply In_settled in I. rewrite Q in I. destruct I. }
  unfold tidy; simpl. destruct (onBody w) as [|p] eqn:O.
  - split; [exact T1|]. split; [discriminate|]. split; [exact T3|].
    split; [exact T4|]. split; [intros k v I; destruct (NoR k v I)|].
    split; [exact T6|]. split; [exact T7 | exact T8].
  - rewrite ended_app, settled_app, resumes_app, latest_only_app, E1, Q, T8.
    change (ended [Resolved p (body w)]) with 0.
    change (settled [Resolved p (body w)]) with [Resolved p (body w)].
    change (resumes [Resolved p (body w)]) with 0.
    rewrite !Nat.add_0_r. simpl.
    split; [lia|]. split; [discriminate|]. split; [discriminate|].
    split; [intros _; eauto|]. split.
    { intros k v I. apply in_app_or in I.
      destruct I as [I | [I | []]]; [destruct (NoR k v I)|].
      injection I as <- <-. split; [reflexivity|]. split; [reflexivity|].
      split; [exists []; rewrite app_nil_r; reflexivity | eauto]. }
    split; [exact T6|]. split; [exact T7|].
    rewrite <- T6, <- T7, Nat.eqb_refl. reflexivity.
Qed.

Lemma tidy_react w ev : sound w -> tidy w -> tidy (world_of (react w ev)).
Proof.
  intros S T; destruct ev; simpl.
  - exact (tidy_deliver w [chunk] S T).
  - destruct (headersRead w) eqn:H; [|exact T].
    apply tidy_deliver;
      [apply sound_text_called; assumption | apply tidy_text_called; exact T].
  - destruct (finishing w) eqn:F; [apply tidy_finished; assumption | exact T].
  - exact T.
Qed.

Lemma tidy_run w evs : sound w -> tidy w -> tidy (world_of (run w evs)).
Proof.
  revert w; induction evs as [|ev evs IH]; intros w S T; simpl; [exact T|].
  pose proof (sound_react w ev S) as S'.
  pose proof (tidy_react w ev S T) as T'.
  destruct (react w ev) as [w'|e w']; simpl in *; auto.
Qed.

Lemma tidy_reached evs : tidy (world_of (run start evs)).
Proof. apply tidy_run; [exact sound_start | exact tidy_start]. Qed.

Lemma settled_shape t e l :
  settled t = e :: l -> exists k v, e = Resolved k v /\ In (Resolved k v) t.
Proof.
  intros E. assert (I : In e (settled t)) by (rewrite E; left; reflexivity).
  unfold settled in I. apply filter_In in I. destruct I as (I & R).
  destruct e; try discriminate. eauto.
Qed.

(** X1.  In every run of the reader [connection.end] is called at most
    once, and at most one promise of [text()] is ever resolved, never
    before [connection.end] has been called. *)
Theorem body_ends_once (evs : list event) :
  ended (trace (world_of (run start evs))) <= 1
  /\ List.length (settled (trace (world_of (run start evs))))
     <= ended (trace (world_of (run start evs))).
Proof.
  destruct (tidy_reached evs) as (T1 & _ & T3 & _ & T5 & _).
  split; [exact T1|].
  destruct (settled (trace (world_of (run start evs)))) as [|e l] eqn:Q;
    [simpl; lia|].
  destruct (settled_shape _ _ _ Q) as (k & v & -> & I).
  destruct (T5 k v I) as (Q' & _). injection Q' as ->.
  destruct (ended (trace (world_of (run start evs)))) as [|m] eqn:E.
  - discriminate (T3 eq_refl).
  - simpl; lia.
Qed.

(** X2.  Whatever a promise of [text()] is resolved with is the body
    as it stood when the stream finished: it has at least as many
    UTF-16 code units as the content length that the headers declare,
    and the body that the reader holds extends it. *)
Theorem resolved_body_is_long_enough
  (evs : list event) (k : nat) (v : text) :
  In (Resolved k v) (trace (world_of (run start evs))) ->
  exists n more,
    contentLength (world_of (run start evs)) = Some n
    /\ N.to_nat n <= jslength v
    /\ body (world_of (run start evs)) = v ++ more.
Proof.
  intros I. destruct (tidy_reached evs) as (_ & _ & _ & _ & T5 & _).
  destruct (T5 k v I) as (_ & _ & (more & M) & n & C & L).
  exists n, more; auto.
Qed.

Lemma resolved_body_is_long_enough_witness :
  exists n more,
    contentLength (world_of (run start resolving_run)) = Some n
    /\ N.to_nat n <= jslength ([LF] ++ str "Hello, world!")
    /\ body (world_of (run start resolving_run))
       = ([LF] ++ str "Hello, world!") ++ more.
Proof.
  refine (resolved_body_is_long_enough resolving_run 1
            ([LF] ++ str "Hello, world!") _).
  vm_compute. do 5 right. left. reflexivity.
Defined.

(** X3.  A promise that is resolved is the one made by the call of
    [text()] that came last before the stream finished: when the log
    of a run is cut at a resolution of promise [k], exactly [k + 1]
    calls of [text()] come before it.  The promises of earlier calls
    are left pending. *)
Theorem latest_promise_is_resolved
  (evs : list event) (t1 t2 : list effect) (k : nat) (v : text) :
  trace (world_of (run start evs)) = t1 ++ Resolved k v :: t2 ->
  S k = resumes t1.
Proof.
  intros E.
  destruct (tidy_reached evs) as (_ & _ & _ & _ & _ & _ & _ & T8).
  rewrite E, latest_only_app in T8. cbn [latest_only] in T8.
  rewrite Nat.add_0_l in T8.
  apply andb_true_iff in T8; destruct T8 as (_ & T8).
  apply andb_true_iff in T8; destruct T8 as (T8 & _).
  apply Nat.eqb_eq in T8. exact T8.
Qed.

Lemma latest_promise_is_resolved_witness :
  1 + 1 = resumes [Pause; OnHeaders; Resume; Resume; End].
Proof.
  refine (latest_promise_is_resolved resolving_run
            [Pause; OnHeaders; Resume; Resume; End] []
            1 ([LF] ++ str "Hello, world!") _).
  vm_compute. reflexivity.
Defined.

Lemma add_body_nil w : add_body w [] = w.
Proof. destruct w; unfold add_body; simpl; rewrite app_nil_r; reflexivity. Qed.

Lemma add_body_cons w c s :
  add_body (append_body w c) s = add_body w (c :: s).
Proof.
  unfold add_body, append_body; simpl. rewrite <- app_assoc; reflexivity.
Qed.

(** Once the body is as long as declared, or longer, a character only
    adds to it. *)
Lemma onData_past w s n :
  headersRead w = true ->
  contentLength w = Some n ->
  N.to_nat n <= jslength (body w) ->
  onData w s = Running (add_body w s).
Proof.
  revert w; induction s as [|c s IH]; intros w H C L; simpl.
  - rewrite add_body_nil; reflexivity.
  - unfold onChar. rewrite H; simpl.
    assert (E : length_is (body w ++ [c]) (contentLength w) = false).
    { rewrite C; simpl. apply N.eqb_neq. intros X.
      apply (f_equal N.to_nat) in X. rewrite Nat2N.id, jslength_app in X.
      simpl in X. pose proof (units_pos c). lia. }
    rewrite E, <- add_body_cons. apply IH; simpl; auto.
    rewrite jslength_app; lia.
Qed.

Lemma past_add_body w s : past w -> past (add_body w s).
Proof.
  intros (H & F & n & C & L). unfold past; simpl.
  split; [exact H|]. split; [exact F|]. exists n. split; [exact C|].
  rewrite jslength_app; lia.
Qed.

Lemma deliver_past w chunks :
  past w ->
  exists w', deliver w chunks = Running w' /\ past w' /\ trace w' = trace w.
Proof.
  revert w; induction chunks as [|chunk chunks IH]; intros w P; simpl.
  - exists w; auto.
  - destruct (paused w).
    + eexists; split; [reflexivity|]. split; [exact P | reflexivity].
    + destruct P as (H & F & n & C & L).
      rewrite (onData_past w chunk n H C L).
      destruct (IH (add_body w chunk)) as (w' & E & P' & T).
      { apply past_add_body. unfold past; eauto. }
      exists w'; auto.
Qed.

Lemma react_past w ev :
  past w ->
  exists w',
    react w ev = Running w'
    /\ past w'
    /\ ended (trace w') = ended (trace w)
    /\ settled (trace w') = settled (trace w).
Proof.
  intros P. destruct ev as [chunk| | |]; simpl.
  - destruct (deliver_past w [chunk] P) as (w' & E & P' & T).
    simpl in E. exists w'. rewrite T; auto.
  - destruct P as (H & F & n & C & L). rewrite H.
    destruct (deliver_past (text_called w) (pending w)) as (w' & E & P' & T).
    { unfold past; simpl; eauto. }
    exists w'. rewrite T; simpl. rewrite ended_app, settled_app.
    change (ended [Resume]) with 0. change (settled [Resume]) with (@nil effect).
    rewrite Nat.add_0_r, app_nil_r. auto.
  - destruct P as (H & F & n & C & L). rewrite F.
    exists w. unfold past; eauto 8.
  - exists w; auto.
Qed.

Lemma run_past w evs :
  past w ->
  exists w',
    run w evs = Running w'
    /\ past w'
    /\ ended (trace w') = ended (trace w)
    /\ settled (trace w') = settled (trace w).
Proof.
  revert w; induction evs as [|ev evs IH]; intros w P; simpl.
  - exists w; auto.
  - destruct (react_past w ev P) as (w1 & -> & P1 & E1 & Q1).
    destruct (IH w1 P1) as (w2 & E & P2 & E2 & Q2).
    exists w2. split; [exact E|]. split; [exact P2|]. split; congruence.
Qed.

(** X4.  Once [connection.end] has been called and the stream has
    finished, nothing more is ever resolved.  A call of [text()] that
    comes after the stream has finished has a promise that stays
    pending, for [connection.end] is not called again and its callback
    does not run again. *)
Theorem nothing_resolves_after_finish
  (evs later : list event) (w : world) :
  run start evs = Running w ->
  ended (trace w) = 1 ->
  finishing w = false ->
  exists w',
    run start (evs ++ later) = Running w'
    /\ settled (trace w') = settled (trace w)
    /\ ended (trace w') = 1
    /\ finishing w' = false.
Proof.
  intros R E F.
  pose proof (sound_reached evs w R) as S.
  pose proof (tidy_reached evs) as T. rewrite R in T; simpl in T.
  destruct T as (_ & _ & _ & T4 & _).
  destruct (T4 E) as (n & C & L).
  assert (P : past w).
  { unfold past. split; [exact (headersRead_of_length w n S C)|]. eauto. }
  destruct (run_past w later P) as (w' & E' & (_ & F' & _) & En & Q).
  exists w'. rewrite run_app, R. repeat split; congruence.
Qed.

Lemma nothing_resolves_after_finish_witness :
  exists w',
    run start ([Arrive hello; Finished] ++ [CallText; Arrive (str "more")])
    = Running w'
    /\ settled (trace w') = []
    /\ ended (trace w') = 1
    /\ finishing w' = false.
Proof.
  pose (evs := [Arrive hello; Finished]).
  assert (R : run start evs = Running (world_of (run start evs)))
    by (vm_compute; reflexivity).
  assert (E : ended (trace (world_of (run start evs))) = 1)
    by (vm_compute; reflexivity).
  assert (F : finishing (world_of (run start evs)) = false)
    by (vm_compute; reflexivity).
  exact (nothing_resolves_after_finish evs [CallText; Arrive (str "more")]
           _ R E F).
Defined.

(** X5.  The length of the body is tested for equality with the
    declared length, each time a character has been added.  When the
    body has become longer than declared without [connection.end]
    having been called (the declared length is 0, or a character of
    two UTF-16 code units stepped over it), [connection.end] is never
    called and no promise of [text()] is ever resolved. *)
Theorem body_that_steps_over_never_ends
  (evs later : list event) (w : world) (n : N) :
  run start evs = Running w ->
  contentLength w = Some n ->
  N.to_nat n < jslength (body w) ->
  ended (trace w) = 0 ->
  exists w',
    run start (evs ++ later) = Running w'
    /\ ended (trace w') = 0
    /\ settled (trace w') = []
    /\ finishing w' = false.
Proof.
  intros R C L E.
  pose proof (sound_reached evs w R) as S.
  pose proof (tidy_reached evs) as T. rewrite R in T; simpl in T.
  destruct T as (_ & T2 & T3 & _).
  assert (F : finishing w = false).
  { destruct (finishing w); [|reflexivity].
    destruct (T2 eq_refl) as (X & _). congruence. }
  assert (P : past w).
  { unfold past. split; [exact (headersRead_of_length w n S C)|].
    split; [exact F|]. exists n. split; [exact C | lia]. }
  destruct (run_past w later P) as (w' & E' & (_ & F' & _) & En & Q).
  exists w'. rewrite run_app, R. rewrite (T3 E) in Q.
  repeat split; congruence.
Qed.

Lemma body_that_steps_over_never_ends_witness :
  exists w',
    run start ([Arrive astral_response]
               ++ [CallText; Arrive (str "more"); Finished])
    = Running w'
    /\ ended (trace w') = 0
    /\ settled (trace w') = []
    /\ finishing w' = false.
Proof.
  pose (evs := [Arrive astral_response]).
  assert (R : run start evs = Running (world_of (run start evs)))
    by (vm_compute; reflexivity).
  assert (C : contentLength (world_of (run start evs)) = Some 2%N)
    by (vm_compute; reflexivity).
  assert (L : N.to_nat 2 < jslength (body (world_of (run start evs)))).
  { vm_compute. lia. }
  assert (E : ended (trace (world_of (run start evs))) = 0)
    by (vm_compute; reflexivity).
  exact (body_that_steps_over_never_ends evs
           [CallText; Arrive (str "more"); Finished] _ 2%N R C L E).
Defined.

(** ** Conservation: proofs *)

Lemma onData_stays w chunk w' :
  headersRead w = false ->
  onData w chunk = Running w' ->
  headersRead w' = false ->
  w' = add_header w chunk.
Proof.
  revert w; induction chunk as [|c chunk IH]; intros w H R H'.
  - simpl in R; injection R as <-. rewrite add_header_nil; reflexivity.
  - simpl in R. unfold onChar in R. rewrite H in R; simpl in R.
    destruct (text_eqb (slice_last (rawHeaders w) ++ [c]) bodyStartMarker).
    + destruct (parseContentLength (rawHeaders w)) as [n|e]; [|discriminate].
      destruct (onData_body (headers_done w n) chunk eq_refl)
        as (w1 & E & _ & H1 & _).
      rewrite E in R; injection R as <-. congruence.
    + rewrite <- add_header_cons. apply IH; auto.
Qed.

Lemma onData_crashes w chunk e w' :
  headersRead w = false ->
  onData w chunk = Crashed e w' ->
  exists a b, chunk = a ++ CR :: b /\ w' = add_header w a.
Proof.
  revert w; induction chunk as [|c chunk IH]; intros w H R.
  - discriminate.
  - simpl in R. unfold onChar in R. rewrite H in R; simpl in R.
    destruct (text_eqb (slice_last (rawHeaders w) ++ [c]) bodyStartMarker)
      eqn:M.
    + apply marker_test in M; destruct M as (_ & ->).
      destruct (parseContentLength (rawHeaders w)) as [n|e'].
      * destruct (onData_body (headers_done w n) chunk eq_refl)
          as (w1 & E & _).
        rewrite E in R; discriminate.
      * injection R as <- <-. exists [], chunk.
        rewrite add_header_nil; auto.
    + destruct (IH (append_header w c) H R) as (a & b & -> & ->).
      exists (c :: a), b. rewrite add_header_cons; auto.
Qed.

Lemma received_run w evs :
  sound w ->
  match run w evs with
  | Running w' => received w' = received w ++ List.concat (arrivals evs)
  | Crashed _ w' =>
      headersRead w' = false
      /\ exists d rest,
           rawHeaders w' = received w ++ d
           /\ List.concat (arrivals evs) = d ++ CR :: rest
  end.
Proof.
  revert w; induction evs as [|ev evs IH]; intros w S.
  - simpl. rewrite app_nil_r; reflexivity.
  - destruct (headersRead w) eqn:H.
    { destruct (run_body w (ev :: evs) S H) as (w' & -> & Hp & B & _).
      unfold header_part in Hp. injection Hp as Hh Hr _ _.
      unfold received. rewrite Hh, H, Hr.
      rewrite <- !app_assoc. do 2 f_equal.
      rewrite !app_assoc. rewrite <- app_assoc in B. simpl in B.
      rewrite <- !app_assoc. exact B. }
    destruct S as (S1 & S2 & S3 & S4).
    destruct (S1 H) as (Hc & Hb & Hp & (Q & _) & Hn).
    assert (S : sound w) by (unfold sound; auto).
    assert (Rw : received w = rawHeaders w) by (unfold received; rewrite H; reflexivity).
    assert (Same : forall ev', react w ev' = Running w -> arrivals [ev'] = [] ->
                   match run w (ev' :: evs) with
                   | Running w' =>
                       received w' = received w
                                     ++ List.concat (arrivals (ev' :: evs))
                   | Crashed _ w' =>
                       headersRead w' = false
                       /\ exists d rest,
                            rawHeaders w' = received w ++ d
                            /\ List.concat (arrivals (ev' :: evs))
                               = d ++ CR :: rest
                   end).
    { intros ev' E A. cbn [run]. rewrite E.
      change (ev' :: evs) with ([ev'] ++ evs). rewrite arrivals_app, A.
      exact (IH w S). }
    destruct ev as [chunk| | |].
    + cbn [run react arrivals]. rewrite (deliver_one w chunk Hp), concat_cons.
      pose proof (sound_onData w chunk S) as S'.
      destruct (onData w chunk) as [w1|e w1] eqn:E.
      * simpl in S'. specialize (IH w1 S').
        assert (R1 : received w1 = received w ++ chunk).
        { destruct (headersRead w1) eqn:H1.
          - destruct (onData_crosses w chunk w1 H E H1)
              as (a & b & t & -> & Hr & Hb1 & _ & Hq & _).
            unfold received. rewrite H1, H, Hr, Hb1, Hb, Hq, (S4 Hp).
            simpl. rewrite app_nil_r, <- app_assoc. reflexivity.
          - rewrite (onData_stays w chunk w1 H E H1).
            unfold received; simpl. rewrite H. reflexivity. }
        destruct (run w1 evs) as [w2|e w2].
        -- rewrite IH, R1, <- app_assoc; reflexivity.
        -- destruct IH as (H2 & d & rest & Hr & A).
           split; [exact H2|]. exists (chunk ++ d), rest.
           rewrite Hr, R1, A, <- !app_assoc. auto.
      * destruct (onData_crashes w chunk e w1 H E) as (a & b & -> & ->).
        split; [exact H|]. exists a, (b ++ List.concat (arrivals evs)).
        rewrite Rw; simpl. rewrite <- app_assoc. auto.
    + apply Same; [simpl; rewrite H; reflexivity | reflexivity].
    + apply Same; [simpl; rewrite Q; reflexivity | reflexivity].
    + apply Same; reflexivity.
Qed.

(** X6.  The reader loses nothing and reorders nothing.  In every run
    that has not thrown, the header text, and once the headers are
    read the carriage return that closed them, the body and the chunks
    that the paused stream holds back, make up, in this order, all the
    text that has come in.  In a run that has thrown, the header text
    is the text that came in before the carriage return on which the
    listener threw. *)
Theorem nothing_received_is_lost (evs : list event) :
  match run start evs with
  | Running w => received w = List.concat (arrivals evs)
  | Crashed _ w =>
      headersRead w = false
      /\ exists rest, List.concat (arrivals evs) = rawHeaders w ++ CR :: rest
  end.
Proof.
  pose proof (received_run start evs sound_start) as R.
  destruct (run start evs) as [w|e w]; [exact R|].
  destruct R as (H & d & rest & Hr & A). split; [exact H|].
  exists rest. rewrite A, Hr. reflexivity.
Qed.

(** X7.  Every response has the line feed that ends its empty line
    counted as the first character of its body.  Let the text that
    comes in, in any chunks and with any calls of [text()] in between,
    be a block of header lines that carries a content length, an empty
    line and a payload.  Then the run does not throw, the header text
    is the block, the body followed by what the paused stream holds is
    the line feed followed by the payload, and whatever a promise of
    [text()] is resolved with is the line feed followed by a prefix of
    the payload. *)
Theorem body_starts_with_the_line_feed
  (evs : list event) (block payload : text) (n : N) :
  List.concat (arrivals evs) = block ++ CRLF ++ payload ->
  slice_last block = [LF] ->
  no_LFCR block = true ->
  parseContentLength block = Ok n ->
  exists w,
    run start evs = Running w
    /\ rawHeaders w = block
    /\ contentLength w = Some n
    /\ body w ++ List.concat (pending w) = LF :: payload
    /\ forall k v,
         In (Resolved k v) (trace w) ->
         exists p q, v = LF :: p /\ payload = p ++ q.
Proof.
  intros A L N P.
  pose proof (parsed_run start evs sound_start) as Q.
  rewrite A in Q.
  change (block ++ CRLF ++ payload) with (block ++ [CR] ++ [LF] ++ payload) in Q.
  rewrite (onData_recognised block ([LF] ++ payload) n L N P) in Q.
  pose proof (received_run start evs sound_start) as C.
  pose proof (tidy_reached evs) as T.
  pose proof (sound_run start evs sound_start) as S.
  destruct (run start evs) as [w|e w]; [|discriminate].
  unfold parsed, header_part in Q; simpl in Q, T, S.
  injection Q as H Hr Hc _.
  unfold received in C. simpl in C. rewrite H, Hr, A in C.
  apply app_inv_head in C. injection C as C.
  exists w. split; [reflexivity|]. split; [exact Hr|]. split; [exact Hc|].
  split; [exact C|].
  intros k v I.
  destruct T as (_ & _ & T3 & _ & T5 & _).
  destruct (T5 k v I) as (Qs & _ & (more & M) & n' & C' & Lv).
  destruct S as (_ & _ & S3 & _).
  assert (1 <= N.to_nat n').
  { destruct S3 as [(_ & _ & Q3) | (m & Cm & Lm)].
    - rewrite Qs in Q3; discriminate.
    - rewrite C' in Cm; injection Cm as <-. lia. }
  destruct v as [|c p]; [simpl in Lv; lia|].
  rewrite M in C. simpl in C. injection C as -> C.
  exists p, (more ++ List.concat (pending w)).
  split; [reflexivity|]. rewrite <- C, <- app_assoc. reflexivity.
Qed.

Lemma body_starts_with_the_line_feed_witness :
  exists w,
    run start resolving_run = Running w
    /\ rawHeaders w = header_block
    /\ contentLength w = Some 13%N
    /\ body w ++ List.concat (pending w) = LF :: str "Hello, world!more"
    /\ forall k v,
         In (Resolved k v) (trace w) ->
         exists p q, v = LF :: p /\ str "Hello, world!more" = p ++ q.
Proof.
  refine (body_starts_with_the_line_feed resolving_run header_block
            (str "Hello, world!more") 13%N _ _ _ _);
    vm_compute; reflexivity.
Defined.

(** ** The letter case of the header: proofs *)

Lemma lower_idem c : lower (lower c) = lower c.
Proof.
  unfold lower.
  destruct ((65 <=? c) && (c <=? 90))%N eqn:E; [|rewrite E; reflexivity].
  apply andb_true_iff in E; destruct E as (A & B).
  apply N.leb_le in A, B.
  destruct ((65 <=? c + 32) && (c + 32 <=? 90))%N eqn:E'; [|reflexivity].
  apply andb_true_iff in E'; destruct E' as (_ & B').
  apply N.leb_le in B'. lia.
Qed.

Lemma is_digit_lower c : is_digit (lower c) = is_digit c.
Proof.
  unfold lower, is_digit.
  destruct ((65 <=? c) && (c <=? 90))%N eqn:E; [|reflexivity].
  apply andb_true_iff in E; destruct E as (A & B).
  apply N.leb_le in A, B.
  assert (X : (c + 32 <=? 57)%N = false) by (apply N.leb_gt; lia).
  assert (Y : (c <=? 57)%N = false) by (apply N.leb_gt; lia).
  rewrite X, Y, !andb_false_r. reflexivity.
Qed.

Lemma lower_digit c : is_digit c = true -> lower c = c.
Proof.
  unfold lower, is_digit. intros D.
  apply andb_true_iff in D; destruct D as (_ & B). apply N.leb_le in B.
  destruct ((65 <=? c) && (c <=? 90))%N eqn:E; [|reflexivity].
  apply andb_true_iff in E; destruct E as (A & _). apply N.leb_le in A. lia.
Qed.

Lemma digits_lower s : digits (map lower s) = digits s.
Proof.
  induction s as [|c s IH]; simpl; [reflexivity|].
  rewrite is_digit_lower. destruct (is_digit c) eqn:D; [|reflexivity].
  rewrite (lower_digit c D), IH. reflexivity.
Qed.

Lemma strip_ci_lower p s :
  strip_ci p (map lower s)
  = match strip_ci p s with
    | Some rest => Some (map lower rest)
    | None => None
    end.
Proof.
  revert s; induction p as [|a p IH]; intros s; simpl; [reflexivity|].
  destruct s as [|c s]; simpl; [reflexivity|].
  rewrite lower_idem. destruct (lower c =? a)%N; [apply IH | reflexivity].
Qed.

Lemma match_here_lower s : match_here (map lower s) = match_here s.
Proof.
  unfold match_here. rewrite strip_ci_lower.
  destruct (strip_ci key s) as [rest|]; [|reflexivity].
  rewrite digits_lower. reflexivity.
Qed.

Lemma regex_match_lower s : regex_match (map lower s) = regex_match s.
Proof.
  induction s as [|c s IH].
  - reflexivity.
  - cbn [regex_match]. change (map lower (c :: s)) with (lower c :: map lower s).
    cbn [regex_match]. change (lower c :: map lower s) with (map lower (c :: s)).
    rewrite match_here_lower, IH. reflexivity.
Qed.

(** X8.  The letter case of the header text does not matter to the
    content length: two header texts that differ only in the case of
    ASCII letters give the same number, or both throw. *)
Theorem content_length_ignores_case (h h' : text) :
  map lower h = map lower h' ->
  parseContentLength h = parseContentLength h'.
Proof.
  intros E. unfold parseContentLength.
  rewrite <- (regex_match_lower h), <- (regex_match_lower h'), E.
  reflexivity.
Qed.

Lemma content_length_ignores_case_witness :
  parseContentLength (str "Content-Length: 13" ++ CRLF)
  = parseContentLength (str "CONTENT-length: 13" ++ CRLF).
Proof.
  refine (content_length_ignores_case _ _ _). vm_compute; reflexivity.
Defined.

(** ** The earlier listings: proofs *)

Lemma slice_last_snoc s c : slice_last (s ++ [c]) = [c].
Proof.
  induction s as [|d s IH]; [reflexivity|].
  change ((d :: s) ++ [c]) with (d :: (s ++ [c])).
  destruct (s ++ [c]) eqn:E; [destruct s; discriminate|].
  cbn [slice_last]. exact IH.
Qed.

Lemma count_LFCR_cons c s :
  count_LFCR (c :: s)
  = (match s with
     | d :: _ => if ((c =? LF)%N && (d =? CR)%N) then 1 else 0
     | [] => 0
     end) + count_LFCR s.
Proof. destruct s; reflexivity. Qed.

Lemma onData1_notifies w s :
  notified (trace w) + count_LFCR (slice_last (rawHeaders w) ++ s)
  <= notified (trace (onData1 w s)).
Proof.
  revert w; induction s as [|c s IH]; intros w.
  - cbn [onData1]. rewrite app_nil_r.
    destruct (slice_last (rawHeaders w)) as [|x [|y l]] eqn:E.
    + simpl; lia.
    + simpl; lia.
    + exfalso. clear -E. induction (rawHeaders w) as [|a r IHr];
        [discriminate|].
      destruct r as [|b r]; [discriminate | exact (IHr E)].
  - cbn [onData1]. unfold onChar1.
    destruct (text_eqb (slice_last (rawHeaders w) ++ [c]) bodyStartMarker)
      eqn:M.
    + apply marker_test in M; destruct M as (L & ->).
      specialize (IH (announce w)). simpl in IH.
      rewrite notified_app in IH.
      change (notified [Pause; OnHeaders]) with 1 in IH.
      rewrite L in *. cbn [app] in *.
      rewrite (count_LFCR_cons LF (CR :: s)).
      rewrite (count_LFCR_cons CR s), (count_LFCR_cons LF s) in *.
      change ((LF =? LF)%N && (CR =? CR)%N) with true. cbn iota.
      assert (Z : match s with
                  | d :: _ => if ((CR =? LF)%N && (d =? CR)%N) then 1 else 0
                  | [] => 0
                  end = 0) by (destruct s; reflexivity).
      rewrite Z. lia.
    + specialize (IH (append_header w c)). simpl in IH.
      rewrite slice_last_snoc in IH. cbn [app] in IH.
      assert (Z : count_LFCR (slice_last (rawHeaders w) ++ c :: s)
                  = count_LFCR (c :: s)).
      { destruct (slice_last (rawHeaders w)) as [|x [|y l]] eqn:E.
        - reflexivity.
        - cbn [app]. rewrite (count_LFCR_cons x (c :: s)).
          destruct ((x =? LF)%N && (c =? CR)%N) eqn:F; [|reflexivity].
          apply andb_true_iff in F; destruct F as (F1 & F2).
          apply N.eqb_eq in F1, F2. subst.
          assert (T : text_eqb (slice_last (rawHeaders w) ++ [CR])
                        bodyStartMarker = true)
            by (apply marker_test; auto).
          congruence.
        - exfalso. clear -E. induction (rawHeaders w) as [|a r IHr];
            [discriminate|].
          destruct r as [|b r]; [discriminate | exact (IHr E)]. }
      rewrite Z. exact IH.
Qed.

(** X9.  The first listing has no flag for headers already read: on
    the text of a chunk its listener pauses the stream and calls
    [onHeaders] at least once for every line feed directly followed by
    a carriage return, so again when one comes after the headers. *)
Theorem first_listing_announces_every_LFCR (data : text) :
  count_LFCR data <= notified (trace (onData1 start data)).
Proof. exact (onData1_notifies start data). Qed.

(** X10.  The second listing parses the content length at every turn
    of the loop, before it looks at the character: as long as the
    header text read so far declares no content length, its listener
    throws the [TypeError] on the next character and reads nothing.
    The header text starts empty, so the listener throws on the first
    character that comes in and [onHeaders] is never called. *)
Theorem second_listing_throws_without_length
  (w : world) (c : char) (data : text) :
  ~ declares (rawHeaders w) ->
  onData2 w (c :: data) = Crashed null_groups w.
Proof.
  intros D. cbn [onData2]. unfold onChar2, parseContentLength.
  destruct (regex_match (rawHeaders w)) as [ds|] eqn:E; [|reflexivity].
  destruct (regex_match_declares (rawHeaders w)) as (Y & _).
  destruct (D (Y ds E)).
Qed.

Lemma second_listing_throws_without_length_witness :
  onData2 start (72%N :: str "TTP/1.1 200 OK") = Crashed null_groups start.
Proof.
  apply second_listing_throws_without_length.
  exact (proj2 (regex_match_declares []) eq_refl).
Defined.

(** ** The tag filter: proofs *)

Lemma count_true_all l :
  count_true l <= List.length l
  /\ (count_true l < List.length l <-> In false l).
Proof.
  unfold count_true. induction l as [|b l (IH1 & IH2)]; simpl.
  - split; [lia|]. split; [lia | intros []].
  - destruct b; simpl.
    + split; [lia|]. split.
      * intros L. right. apply IH2. lia.
      * intros [X | X]; [discriminate|]. apply IH2 in X. lia.
    + split; [lia|]. split; [auto | lia].
Qed.

Lemma In_false_excluded tag posts :
  In false (excluded tag posts)
  <-> existsb (fun q => includes q tag) posts = true.
Proof.
  unfold excluded. rewrite in_map_iff, existsb_exists. split.
  - intros (q & E & I). exists q. split; [exact I|].
    destruct (includes q tag); [reflexivity | discriminate].
  - intros (q & I & E). exists q. rewrite E. auto.
Qed.

Lemma hidden_flags c t posts :
  hidden (Some (c :: t)) posts
  = map (fun postTags =>
           negb (includes postTags (c :: t))
           && existsb (fun q => includes q (c :: t)) posts) posts.
Proof.
  unfold hidden.
  destruct (count_true_all (excluded (c :: t) posts)) as (_ & L).
  rewrite In_false_excluded in L.
  assert (Len : List.length (excluded (c :: t) posts) = List.length posts)
    by (unfold excluded; apply length_map).
  rewrite Len in L.
  destruct (count_true (excluded (c :: t) posts) <? List.length posts) eqn:E.
  - apply Nat.ltb_lt in E. apply L in E. rewrite E.
    unfold excluded. apply map_ext. intros a. rewrite andb_true_r; reflexivity.
  - apply Nat.ltb_ge in E.
    destruct (existsb (fun q => includes q (c :: t)) posts) eqn:F.
    + pose proof (proj2 L eq_refl). lia.
    + apply map_ext. intros a. rewrite andb_false_r; reflexivity.
Qed.

(** X11.  With a tag in the address, the home page hides a post
    exactly when the post does not carry the tag and some post of the
    list does: a tag that no post carries hides nothing. *)
Theorem tag_filter_shows_the_tagged
  (c : char) (t : text) (posts : list (list text)) :
  hidden (Some (c :: t)) posts
  = map (fun postTags =>
           negb (includes postTags (c :: t))
           && existsb (fun q => includes q (c :: t)) posts) posts.
Proof. exact (hidden_flags c t posts). Qed.

(** X12.  Whatever the tag, present or not, the home page never hides
    all its posts: when there are posts, one at least stays shown. *)
Theorem tag_filter_never_hides_everything
  (tag : option text) (posts : list (list text)) :
  posts <> [] ->
  In false (hidden tag posts).
Proof.
  intros NE.
  assert (A : In false (map (fun _ : list text => false) posts)).
  { destruct posts as [|p posts]; [contradiction | left; reflexivity]. }
  destruct tag as [[|c t]|]; try exact A.
  rewrite hidden_flags.
  destruct (existsb (fun q => includes q (c :: t)) posts) eqn:E.
  - apply existsb_exists in E. destruct E as (q & I & Q).
    apply in_map_iff. exists q. rewrite Q. auto.
  - destruct posts as [|p posts]; [contradiction|].
    left. simpl. rewrite andb_false_r. reflexivity.
Qed.

Lemma tag_filter_never_hides_everything_witness :
  In false (hidden (Some (str "node"))
              [[str "javascript"; str "node"; str "http"];
               [str "postgresql"; str "python"]]).
Proof.
  apply tag_filter_never_hides_everything. discriminate.
Defined.

(** ** Tic tac toe: proofs *)

Lemma cell_is_spec row i p : cell_is row i p = true <-> nth_error row i = Some p.
Proof.
  unfold cell_is. destruct (nth_error row i) as [square|].
  - rewrite text_eqb_eq. split; congruence.
  - split; discriminate.
Qed.

Lemma row_full row p :
  forallb (fun square => text_eqb square p) row = true
  <-> forall square, In square row -> square = p.
Proof.
  rewrite forallb_forall. split; intros H square I.
  - apply text_eqb_eq, H, I.
  - apply text_eqb_eq, H, I.
Qed.

Lemma colWins_spec grid p c :
  colWins grid p c = true
  <-> forall row, In row grid -> nth_error row c = Some p.
Proof.
  unfold colWins. rewrite forallb_forall. split; intros H row I.
  - apply cell_is_spec, H, I.
  - apply cell_is_spec, H, I.
Qed.

Lemma truthy_player p : In p players -> truthy (Some p) = true.
Proof. intros [<- | [<- | []]]; reflexivity. Qed.

Lemma find_spec (f : text -> result bool) l :
  (forall x, In x l -> exists b, f x = Ok b) ->
  exists r,
    find f l = Ok r
    /\ (forall x, r = Some x -> In x l /\ f x = Ok true)
    /\ (r = None -> forall x, In x l -> f x = Ok false).
Proof.
  induction l as [|y l IH]; intros T; simpl.
  - exists None. split; [reflexivity|]. split; [discriminate | intros _ x []].
  - destruct (T y (or_introl eq_refl)) as ([|] & E); rewrite E.
    + exists (Some y). split; [reflexivity|]. split; [|discriminate].
      intros x X; injection X as <-. auto.
    + destruct IH as (r & F & Y & N).
      { intros x I. apply T. right; exact I. }
      exists r. split; [exact F|]. split.
      * intros x X. destruct (Y x X). auto.
      * intros X x [<- | I]; [exact E | exact (N X x I)].
Qed.

(** Within the grid [isWinner] does not throw, and tells whether the
    row or the column is the player's. *)
Lemma isWinner_spec grid r c p row :
  nth_error grid r = Some row ->
  exists b,
    isWinner grid r c p = Ok b
    /\ (b = true <->
        (forall square, In square row -> square = p)
        \/ (forall row', In row' grid -> nth_error row' c = Some p)).
Proof.
  intros R. unfold isWinner, rowWins. rewrite R.
  destruct (forallb (fun square => text_eqb square p) row) eqn:F.
  - exists true. split; [reflexivity|]. split; [|reflexivity].
    intros _. left. apply row_full, F.
  - exists (colWins grid p c). split; [reflexivity|]. split.
    + intros C. right. apply colWins_spec, C.
    + intros [X | X].
      * apply row_full in X. congruence.
      * apply colWins_spec, X.
Qed.

Lemma scan_columns_spec grid r row cols :
  nth_error grid r = Some row ->
  exists res,
    scan_columns grid r cols = Ok res
    /\ (forall p, res = Some p ->
          In p players /\ exists c, In c cols /\ isWinner grid r c p = Ok true)
    /\ (res = None ->
        forall c p, In c cols -> In p players ->
                    isWinner grid r c p = Ok false).
Proof.
  intros R. induction cols as [|c cols (res & E & Y & N)];
    cbn [scan_columns].
  - exists None. split; [reflexivity|]. split; [discriminate|].
    intros _ c p [].
  - destruct (find_spec (isWinner grid r c) players) as (w & F & FY & FN).
    { intros x _. destruct (isWinner_spec grid r c x row R) as (b & B & _).
      eauto. }
    rewrite F. destruct w as [x|].
    + destruct (FY x eq_refl) as (I & W).
      rewrite (truthy_player x I).
      exists (Some x). split; [reflexivity|]. split; [|discriminate].
      intros p X; injection X as <-. split; [exact I|].
      exists c. split; [left; reflexivity | exact W].
    + simpl. exists res. split; [exact E|]. split.
      * intros p X. destruct (Y p X) as (I & c' & Ic & W).
        split; [exact I|]. exists c'. split; [right; exact Ic | exact W].
      * intros X c' p [<- | Ic] Ip; [exact (FN eq_refl p Ip)|].
        exact (N X c' p Ic Ip).
Qed.

Lemma scan_rows_spec grid rows :
  (forall r, In r rows -> r < List.length grid) ->
  exists res,
    scan_rows grid rows = Ok res
    /\ (forall p, res = Some p ->
          In p players
          /\ exists r c, In r rows /\ c < List.length (nth r grid [])
                         /\ isWinner grid r c p = Ok true)
    /\ (res = None ->
        forall r c p, In r rows -> c < List.length (nth r grid []) ->
                      In p players -> isWinner grid r c p = Ok false).
Proof.
  induction rows as [|r rows IH]; intros B; simpl.
  - exists None. split; [reflexivity|]. split; [discriminate|].
    intros _ r c p [].
  - assert (R : exists row, nth_error grid r = Some row).
    { destruct (nth_error grid r) as [row|] eqn:E; [eauto|].
      apply nth_error_None in E.
      specialize (B r (or_introl eq_refl)). lia. }
    destruct R as (row & R).
    destruct (scan_columns_spec grid r row
                (seq 0 (List.length (nth r grid []))) R)
      as (res & E & Y & N).
    rewrite E. destruct res as [x|].
    + exists (Some x). split; [reflexivity|]. split; [|discriminate].
      intros p X; injection X as <-.
      destruct (Y x eq_refl) as (I & c & Ic & W). split; [exact I|].
      exists r, c. split; [left; reflexivity|]. split; [|exact W].
      apply in_seq in Ic. lia.
    + destruct IH as (res' & E' & Y' & N').
      { intros r' I. apply B. right; exact I. }
      exists res'. split; [exact E'|]. split.
      * intros p X. destruct (Y' p X) as (I & r' & c & Ir & Lc & W).
        split; [exact I|]. exists r', c. split; [right; exact Ir | auto].
      * intros X r' c p [<- | Ir] Lc Ip.
        -- apply (N eq_refl c p); [|exact Ip]. apply in_seq. lia.
        -- exact (N' X r' c p Ir Lc Ip).
Qed.

Lemma anti_diagonal_spec rows index len p :
  snd (anti_diagonal rows index len p) = true
  <-> forall i row, nth_error rows i = Some row ->
                    nth_error row (len - 1 - (index + i)) = Some p.
Proof.
  revert index; induction rows as [|row rows IH]; intros index; simpl.
  - split; [|reflexivity]. intros _ [|i] row; discriminate.
  - destruct (cell_is row (len - 1 - index) p) eqn:C.
    + specialize (IH (S index)).
      destruct (anti_diagonal rows (S index) len p) as (log, all). simpl in *.
      rewrite IH. apply cell_is_spec in C. split.
      * intros H [|i] row' E; simpl in E.
        -- injection E as <-. rewrite Nat.add_0_r. exact C.
        -- rewrite Nat.add_succ_r. exact (H i row' E).
      * intros H i row' E. specialize (H (S i) row' E).
        rewrite Nat.add_succ_r in H. exact H.
    + simpl. split; [discriminate|]. intros H.
      specialize (H 0 row eq_refl). rewrite Nat.add_0_r in H.
      apply cell_is_spec in H. congruence.
Qed.

Lemma main_diagonal_spec rows index p :
  main_diagonal rows index p = true
  <-> forall i row, nth_error rows i = Some row ->
                    nth_error row (index + i) = Some p.
Proof.
  revert index; induction rows as [|row rows IH]; intros index; simpl.
  - split; [|reflexivity]. intros _ [|i] row; discriminate.
  - rewrite andb_true_iff, IH, cell_is_spec. split.
    + intros (C & H) [|i] row' E; simpl in E.
      * injection E as <-. rewrite Nat.add_0_r. exact C.
      * rewrite Nat.add_succ_r. exact (H i row' E).
    + intros H. split.
      * specialize (H 0 row eq_refl). rewrite Nat.add_0_r in H. exact H.
      * intros i row' E. specialize (H (S i) row' E).
        rewrite Nat.add_succ_r in H. exact H.
Qed.

Lemma diagonalWin_spec grid p :
  snd (diagonalWin grid p) = true
  <-> has_anti_diagonal grid p \/ has_main_diagonal grid p.
Proof.
  unfold diagonalWin, has_anti_diagonal, has_main_diagonal.
  pose proof (anti_diagonal_spec grid 0 (List.length grid) p) as A.
  pose proof (main_diagonal_spec grid 0 p) as M.
  destruct (anti_diagonal grid 0 (List.length grid) p) as (log, anti).
  simpl in A. destruct anti; simpl.
  - split; [|reflexivity]. intros _. left. apply A. reflexivity.
  - rewrite M. split; [auto|]. intros [X | X]; [|exact X].
    apply A in X. discriminate.
Qed.

Lemma find_diagonal_spec grid l :
  (forall p, snd (find_diagonal grid l) = Some p ->
     In p l /\ snd (diagonalWin grid p) = true)
  /\ (snd (find_diagonal grid l) = None ->
      forall p, In p l -> snd (diagonalWin grid p) = false).
Proof.
  induction l as [|x l (Y & N)]; simpl.
  - split; [discriminate | intros _ p []].
  - destruct (diagonalWin grid x) as (log, won) eqn:D.
    destruct won; simpl.
    + split; [|discriminate]. intros p X; injection X as <-.
      split; [left; reflexivity | rewrite D; reflexivity].
    + destruct (find_diagonal grid l) as (log', found). simpl in *. split.
      * intros p X. destruct (Y p X). auto.
      * intros X p [<- | I]; [rewrite D; reflexivity | exact (N X p I)].
Qed.

Lemma calculateWinner_spec grid :
  exists log winner,
    calculateWinner grid = Ok (log, winner)
    /\ (forall p, winner = Some p -> In p players /\ has_line grid p)
    /\ (winner = None -> forall p, In p players -> ~ has_line grid p).
Proof.
  unfold calculateWinner.
  destruct (scan_rows_spec grid (seq 0 (List.length grid)))
    as (res & E & Y & N).
  { intros r I. apply in_seq in I. lia. }
  rewrite E. destruct res as [x|].
  - exists [], (Some x). split; [reflexivity|]. split; [|discriminate].
    intros p X; injection X as <-.
    destruct (Y x eq_refl) as (I & r & c & Ir & Lc & W). split; [exact I|].
    apply in_seq in Ir.
    destruct (nth_error grid r) as [row|] eqn:R;
      [|apply nth_error_None in R; lia].
    rewrite (nth_error_nth grid r [] R) in Lc.
    destruct (isWinner_spec grid r c x row R) as (b & B & S).
    rewrite B in W; injection W as ->.
    destruct (proj1 S eq_refl) as [F | F].
    + left. exists r, row. split; [exact R|]. split; [|exact F].
      intros ->; simpl in Lc; lia.
    + right; left. exists c. split; [|exact F].
      intros ->. destruct r; discriminate.
  - pose proof (find_diagonal_spec grid players) as (DY & DN).
    destruct (find_diagonal grid players) as (log, dw). simpl in DY, DN.
    destruct dw as [x|].
    + destruct (DY x eq_refl) as (I & D).
      rewrite (truthy_player x I).
      exists log, (Some x). split; [reflexivity|]. split; [|discriminate].
      intros p X; injection X as <-. split; [exact I|].
      right; right. apply diagonalWin_spec, D.
    + simpl. exists log, None. split; [reflexivity|]. split; [discriminate|].
      intros _ p Ip [(r & row & R & NE & F) | [(c & NE & F) | D]].
      * assert (Lr : r < List.length grid).
        { apply nth_error_Some. congruence. }
        assert (Lc : 0 < List.length (nth r grid [])).
        { rewrite (nth_error_nth grid r [] R). destruct row; [contradiction|].
          simpl; lia. }
        assert (Ir : In r (seq 0 (List.length grid))) by (apply in_seq; lia).
        pose proof (N eq_refl r 0 p Ir Lc Ip) as W.
        destruct (isWinner_spec grid r 0 p row R) as (b & B & S).
        rewrite B in W; injection W as ->.
        assert (X : false = true) by (apply S; left; exact F). discriminate.
      * destruct grid as [|row grid]; [contradiction|].
        assert (C : nth_error row c = Some p) by (apply F; left; reflexivity).
        assert (Lc : c < List.length (nth 0 (row :: grid) [])).
        { simpl. apply nth_error_Some. congruence. }
        assert (Ir : In 0 (seq 0 (List.length (row :: grid)))).
        { apply in_seq. simpl; lia. }
        pose proof (N eq_refl 0 c p Ir Lc Ip) as W.
        destruct (isWinner_spec (row :: grid) 0 c p row eq_refl) as (b & B & S).
        rewrite B in W; injection W as ->.
        assert (X : false = true) by (apply S; right; exact F). discriminate.
      * apply diagonalWin_spec in D. rewrite (DN eq_refl p Ip) in D.
        discriminate.
Qed.

(** X13.  [calculateWinner] never throws, whatever the grid, and what
    it returns is right: a winner it names is one of the two players
    and has a line in the grid (a row that is not empty, a column, or
    one of the two diagonals, all of the player's mark), and it
    returns [null] only when neither player has a line. *)
Theorem calculateWinner_finds_a_line (grid : list (list text)) :
  exists log winner,
    calculateWinner grid = Ok (log, winner)
    /\ (forall p, winner = Some p -> In p players /\ has_line grid p)
    /\ (winner = None -> forall p, In p players -> ~ has_line grid p).
Proof. exact (calculateWinner_spec grid). Qed.

Lemma next_player n :
  nth (n mod 2) players (str "undefined")
  = if Nat.even n then str "X" else str "0".
Proof.
  destruct (Nat.even n) eqn:E.
  - apply Nat.even_spec in E. destruct E as (k & ->).
    rewrite Nat.mul_comm, Nat.Div0.mod_mul. reflexivity.
  - assert (O : Nat.odd n = true) by (unfold Nat.odd; rewrite E; reflexivity).
    apply Nat.odd_spec in O. destruct O as (k & ->).
    rewrite Nat.add_comm, Nat.mul_comm, Nat.Div0.mod_add. reflexivity.
Qed.

(** X14.  The status line never shows a winner.  As long as neither
    player has a line it shows the next player, X on even turns and 0
    on odd ones; as soon as a player has a line, evaluating it throws
    a [ReferenceError], the name [winner] being undefined. *)
Theorem Status_never_shows_a_winner
  (grid : list (list text)) (currentPlayer : nat) :
  ((exists p, In p players /\ has_line grid p) ->
   exists log, Status grid currentPlayer = ReferenceError log "winner")
  /\ ((forall p, In p players -> ~ has_line grid p) ->
      exists log,
        Status grid currentPlayer
        = Shown log (str "Next player: "
                     ++ if Nat.even currentPlayer then str "X" else str "0")).
Proof.
  unfold Status.
  destruct (calculateWinner_spec grid) as (log & winner & -> & Y & N).
  destruct winner as [x|]; split.
  - intros _. exists log. reflexivity.
  - intros No. destruct (Y x eq_refl) as (I & L). destruct (No x I L).
  - intros (p & I & L). destruct (N eq_refl p I L).
  - intros _. exists log. rewrite next_player. reflexivity.
Qed.

Lemma Status_never_shows_a_winner_witness :
  (exists log, Status won_grid 5 = ReferenceError log "winner")
  /\ exists log,
       Status [[str "X"; str ""]; [str ""; str "0"]] 2
       = Shown log (str "Next player: X").
Proof.
  split.
  - apply (proj1 (Status_never_shows_a_winner won_grid 5)).
    exists (str "X"). split; [left; reflexivity|].
    right; right; right. intros [|[|[|i]]] row E; simpl in E;
      try (injection E as <-; reflexivity).
    destruct i; discriminate.
  - apply (proj2 (Status_never_shows_a_winner
                    [[str "X"; str ""]; [str ""; str "0"]] 2)).
    intros p Ip L.
    pose proof (calculateWinner_spec [[str "X"; str ""]; [str ""; str "0"]])
      as (log & winner & E & _ & N).
    vm_compute in E. injection E as <- <-.
    exact (N eq_refl p Ip L).
Defined.

(** ** When the stream is paused: proofs *)

Lemma paused_onChar w c :
  paused_for_headers w -> paused_for_headers (world_of (onChar w c)).
Proof.
  intros (K1 & K2). unfold onChar. destruct (headersRead w) eqn:H; simpl.
  - destruct (length_is (body w ++ [c]) (contentLength w)); simpl;
      unfold paused_for_headers; simpl; rewrite H; auto.
  - destruct (text_eqb (slice_last (rawHeaders w) ++ [c]) bodyStartMarker).
    + destruct (parseContentLength (rawHeaders w)) as [n|e]; simpl.
      * unfold paused_for_headers; simpl. rewrite (K1 eq_refl).
        split; [discriminate | reflexivity].
      * unfold paused_for_headers; rewrite H; auto.
    + unfold paused_for_headers; simpl; rewrite H; auto.
Qed.

Lemma paused_onData w s :
  paused_for_headers w -> paused_for_headers (world_of (onData w s)).
Proof.
  revert w; induction s as [|c s IH]; intros w K; simpl; [exact K|].
  pose proof (paused_onChar w c K) as K'.
  destruct (onChar w c) as [w'|e w']; simpl in *; auto.
Qed.

Lemma paused_deliver w chunks :
  paused_for_headers w -> paused_for_headers (world_of (deliver w chunks)).
Proof.
  revert w; induction chunks as [|chunk chunks IH]; intros w K; simpl;
    [exact K|].
  destruct (paused w) eqn:P; simpl; [exact K|].
  pose proof (paused_onData w chunk K) as K'.
  destruct (onData w chunk) as [w'|e w']; simpl in *; auto.
Qed.

Lemma paused_react w ev :
  paused_for_headers w -> paused_for_headers (world_of (react w ev)).
Proof.
  intros K. destruct ev as [chunk| | |]; simpl.
  - exact (paused_deliver w [chunk] K).
  - destruct (headersRead w) eqn:H; [|exact K].
    apply paused_deliver. unfold paused_for_headers; simpl. rewrite H.
    split; [discriminate | reflexivity].
  - destruct (finishing w); [|exact K]. exact K.
  - exact K.
Qed.

Lemma paused_run w evs :
  paused_for_headers w -> paused_for_headers (world_of (run w evs)).
Proof.
  revert w; induction evs as [|ev evs IH]; intros w K; simpl; [exact K|].
  pose proof (paused_react w ev K) as K'.
  destruct (react w ev) as [w'|e w']; simpl in *; auto.
Qed.

(** X15.  The reader holds the stream back for the headers only.  In
    every run the stream is paused exactly when the headers have been
    announced and [text()] has not been called yet; [text()] is never
    called before the headers; and once [text()] has been called the
    stream is never paused again, however much of the body comes
    in. *)
Theorem stream_is_paused_for_the_headers_only (evs : list event) :
  paused (world_of (run start evs))
  = headersRead (world_of (run start evs))
    && (promises (world_of (run start evs)) =? 0)
  /\ (headersRead (world_of (run start evs)) = false ->
      promises (world_of (run start evs)) = 0).
Proof.
  destruct (paused_run start evs) as (K1 & K2).
  { split; [reflexivity | reflexivity]. }
  split; assumption.
Qed.

(** ** Chunks of bytes: proofs *)







